(** * Slimshell: command registry, builder protocol and dispatch loop

    A shallow embedding of [src/index.ts].  The shell object and the process
    resources it touches (standard input, the console, the keypress listeners
    on [process.stdin]) form one explicit state, threaded through a small
    state-and-exception monad.  Command definitions are heap objects: the
    registry and the builder stages hold references to them, never copies.

    Modelling conventions.
    - The two plain objects used as dictionaries ([this.cds] and the argument
      bag) are finite maps over their own keys, read through their prototype
      chain: a name that is not an own key but is a property of
      [Object.prototype] reads as that property, not as [undefined].
    - [chalk] colouring is presentation and is the identity here.
    - [minimist] and [String.prototype.trim] are library functions; the
      dispatch code is parameterised by them.
    - A handler is a total function from the argument bag to its response;
      handlers that reject or never settle are outside the model. *)

From stdpp Require Import base option list gmap strings pretty.
From Stdlib Require Import ZArith Ascii.

#[local] Set Warnings "-clear-no-such-hyp".

Local Open Scope string_scope.
Local Open Scope list_scope.

(** ** Data model *)

(** The scalars of [IArguments]: [string | number | boolean].  Numbers are
    taken to be integers: the code only tests them for truthiness, and the
    tokenizer never yields NaN, the one falsy number besides zero. *)
Inductive scalar : Type :=
  | SStr (s : string)
  | SNum (n : Z)
  | SBool (b : bool).

(** What reading a property of the argument bag can give: [undefined], a
    scalar, a list, or, for a name the bag does not own but inherits, the
    function or object that [Object.prototype] has under that name. *)
Inductive value : Type :=
  | VUndefined
  | VScalar (x : scalar)
  | VArray (xs : list scalar)
  | VInherited.

Abbreviation VStr s := (VScalar (SStr s)).
Abbreviation VNum n := (VScalar (SNum n)).
Abbreviation VBool b := (VScalar (SBool b)).

Abbreviation IArguments := (gmap string value).

(** The property names of [Object.prototype], which every plain object
    inherits. *)
Definition Object_prototype : list string :=
  ["constructor"; "__defineGetter__"; "__defineSetter__"; "hasOwnProperty";
   "__lookupGetter__"; "__lookupSetter__"; "isPrototypeOf";
   "propertyIsEnumerable"; "toString"; "valueOf"; "__proto__";
   "toLocaleString"].

Definition inherited (k : string) : bool :=
  bool_decide (k ∈ Object_prototype).

(** [args[k]]: the own property when there is one; otherwise the inherited
    one for a name of [Object.prototype]; otherwise [undefined]. *)
Definition get (args : IArguments) (k : string) : value :=
  match args !! k with
  | Some v => v
  | None => if inherited k then VInherited else VUndefined
  end.

(** JavaScript truthiness, as tested by [!args[req.name]]. *)
Definition truthy (v : value) : bool :=
  match v with
  | VUndefined => false
  | VScalar (SStr s) => negb (String.eqb s "")
  | VScalar (SNum n) => negb (Z.eqb n 0)
  | VScalar (SBool b) => b
  | VArray _ => true
  | VInherited => true
  end.

(** [v !== undefined] *)
Definition defined (v : value) : bool :=
  match v with VUndefined => false | _ => true end.

Record IArgumentDefinition : Type := {
  description : string;
  name : string;
  alternatives : option (list string);
}.

Record ICommandResponse : Type := {
  success : bool;
  messages : option (list string);
}.

Definition Command : Type := IArguments → ICommandResponse.

Record ICommandDefinition : Type := {
  verb : string;
  noun : option string;
  command : Command;
  requiredArguments : option (list IArgumentDefinition);
}.

Definition NoCommand : Command :=
  λ _, {| success := true; messages := None |}.

Record ISlimshellConfig : Type := {
  title : option string;
  version : option string;
  exitCommands : option (list string);
}.

Definition DEFAULT_title : string := "Slimshell".
Definition DEFAULT_version : string := "1.0.0".
Definition DEFAULT_exitCommands : list string := ["exit"].

Definition exit : Command :=
  λ _, {| success := false; messages := Some ["byeee"] |}.

(** ** The shell object and its environment *)

(** A reference to a command definition on the heap. *)
Abbreviation loc := nat.

(** What arrives on standard input: a line ended by return, or the escape key. *)
Inductive key_event : Type :=
  | Line (s : string)
  | Escape.

(** Observable effects, in the order they happen. *)
Inductive effect : Type :=
  | Question (text : string)            (* readline question written out *)
  | Log (text : string)                 (* console.log *)
  | Invoke (cd : loc) (args : IArguments) (* a handler is called *)
  | CloseInput (h : nat)                (* readline interface closed *)
  | OpenInput (h : nat).                (* readline interface created *)

Record Slimshell : Type := mkShell {
  config_title : string;
  config_version : string;
  config_exitCommands : list string;
  cds : gmap string (list loc);
  heap : list ICommandDefinition;
  input : option nat;          (* this.input: the current readline interface *)
  keypress : nat;              (* listeners getArgument put on process.stdin *)
  stdin : list key_event;      (* what the user is going to type *)
  trace : list effect;
}.

Definition set_cds (f : gmap string (list loc) → gmap string (list loc))
    (w : Slimshell) : Slimshell :=
  mkShell (config_title w) (config_version w) (config_exitCommands w)
          (f (cds w)) (heap w) (input w) (keypress w) (stdin w) (trace w).

Definition set_heap (f : list ICommandDefinition → list ICommandDefinition)
    (w : Slimshell) : Slimshell :=
  mkShell (config_title w) (config_version w) (config_exitCommands w)
          (cds w) (f (heap w)) (input w) (keypress w) (stdin w) (trace w).

Definition set_input (h : option nat) (w : Slimshell) : Slimshell :=
  mkShell (config_title w) (config_version w) (config_exitCommands w)
          (cds w) (heap w) h (keypress w) (stdin w) (trace w).

Definition set_keypress (n : nat) (w : Slimshell) : Slimshell :=
  mkShell (config_title w) (config_version w) (config_exitCommands w)
          (cds w) (heap w) (input w) n (stdin w) (trace w).

Definition set_stdin (ins : list key_event) (w : Slimshell) : Slimshell :=
  mkShell (config_title w) (config_version w) (config_exitCommands w)
          (cds w) (heap w) (input w) (keypress w) ins (trace w).

Definition emit (e : effect) (w : Slimshell) : Slimshell :=
  mkShell (config_title w) (config_version w) (config_exitCommands w)
          (cds w) (heap w) (input w) (keypress w) (stdin w) (trace w ++ [e]).

(** ** Outcomes of running shell code *)

Inductive js_error : Type :=
  | TypeError      (* reading a property of, or spreading, undefined *)
  | Rejected.      (* the promise of getArgument was rejected *)

Inductive outcome (A : Type) : Type :=
  | Done (a : A) (w : Slimshell)
  | Throw (e : js_error) (w : Slimshell)
  | Blocked (w : Slimshell)     (* awaiting input that never comes *)
  | OutOfFuel (w : Slimshell).  (* artefact of bounded loops; never produced
                                   with the fuel the code below supplies *)
Arguments Done {A} a w.
Arguments Throw {A} e w.
Arguments Blocked {A} w.
Arguments OutOfFuel {A} w.

Definition M (A : Type) : Type := Slimshell → outcome A.

#[global] Instance M_ret : MRet M := λ A (a : A) w, Done a w.

#[global] Instance M_bind : MBind M := λ A B (k : A → M B) (m : M A) w,
  match m w with
  | Done a w' => k a w'
  | Throw e w' => Throw e w'
  | Blocked w' => Blocked w'
  | OutOfFuel w' => OutOfFuel w'
  end.

Definition throw {A} (e : js_error) : M A := λ w, Throw e w.

(** [try { m } catch (e) { h }] *)
Definition try_catch {A} (m : M A) (h : M A) : M A :=
  λ w, match m w with
       | Throw _ w' => h w'
       | r => r
       end.

Definition modify (f : Slimshell → Slimshell) : M unit := λ w, Done tt (f w).

(** ** Construction *)

(** [a || b] on an optional string: the empty string is falsy. *)
Definition or_default (a : option string) (b : string) : string :=
  match a with
  | Some s => if String.eqb s "" then b else s
  | None => b
  end.

(** [this.input.close()] when there is one, then a new interface on stdin. *)
Definition initInput (w : Slimshell) : Slimshell :=
  match input w with
  | Some h => emit (OpenInput (S h)) (set_input (Some (S h)) (emit (CloseInput h) w))
  | None => emit (OpenInput 0) (set_input (Some 0) w)
  end.

(** One turn of [for (const ec of this.config.exitCommands)]:
    a new definition is allocated and becomes the whole list of its verb. *)
Definition install_exit (w : Slimshell) (ec : string) : Slimshell :=
  let l := length (heap w) in
  set_cds (<[ec := [l]]>)
    (set_heap (λ h, h ++ [{| verb := ec; noun := None; command := exit;
                             requiredArguments := None |}]) w).

(** [new Slimshell(config)], run in a process whose user will type [ins]. *)
Definition constructor (config : ISlimshellConfig) (ins : list key_event)
    : outcome unit :=
  let blank := mkShell DEFAULT_title DEFAULT_version [] ∅ [] None 0 ins [] in
  match exitCommands config with
  | None => Throw TypeError blank   (* [...undefined] is not iterable *)
  | Some ecs =>
      let w := mkShell (or_default (title config) DEFAULT_title)
                       (or_default (version config) DEFAULT_version)
                       (ecs ++ DEFAULT_exitCommands)
                       ∅ [] None 0 ins [] in
      Done tt (initInput (foldl install_exit w (ecs ++ DEFAULT_exitCommands)))
  end.

(** ** Builder stages *)

(** Each stage object holds the shell (the state) and a reference to the one
    definition created by [on]. *)
Inductive _ssCall : Type := SsCall (cd : loc).
Inductive _ssWith : Type := SsWith (cd : loc).
Inductive _ssRun : Type := SsRun (cd : loc).
Inductive _ssRequiring : Type := SsRequiring (cd : loc).

(** [_ssWith extends _ssCall], [_ssRequiring extends _ssRun]. *)
Definition with_as_call (s : _ssWith) : _ssCall :=
  match s with SsWith l => SsCall l end.
Definition requiring_as_run (s : _ssRequiring) : _ssRun :=
  match s with SsRequiring l => SsRun l end.
Coercion with_as_call : _ssWith >-> _ssCall.
Coercion requiring_as_run : _ssRequiring >-> _ssRun.

Definition set_noun (n : string) (d : ICommandDefinition) : ICommandDefinition :=
  {| verb := verb d; noun := Some n; command := command d;
     requiredArguments := requiredArguments d |}.

Definition set_command (c : Command) (d : ICommandDefinition) : ICommandDefinition :=
  {| verb := verb d; noun := noun d; command := c;
     requiredArguments := requiredArguments d |}.

Definition set_requiredArguments (rs : list IArgumentDefinition)
    (d : ICommandDefinition) : ICommandDefinition :=
  {| verb := verb d; noun := noun d; command := command d;
     requiredArguments := Some rs |}.

(** The steps of [shell.on(verb)]: the list of the verb is made when the
    registry has nothing under it, the new definition is allocated with the
    placeholder handler and pushed on the list.  This is all of [on]
    whenever [this.cds[verb]] is undefined or an array; [shell_on] below
    adds the case left, an inherited property under the verb, where the
    guard sees a truthy value and the push throws. *)
Definition on (v : string) (w : Slimshell) : _ssWith * Slimshell :=
  let w1 := match cds w !! v with
            | Some _ => w
            | None => set_cds (<[v := []]>) w
            end in
  let l := length (heap w1) in
  let w2 := set_heap (λ h, h ++ [{| verb := v; noun := None; command := NoCommand;
                                    requiredArguments := None |}]) w1 in
  (SsWith l, set_cds (alter (λ ls, ls ++ [l]) v) w2).

(** [stage.with(noun)] *)
Definition ss_with (s : _ssWith) (n : string) (w : Slimshell)
    : _ssCall * Slimshell :=
  match s with
  | SsWith l => (SsCall l, set_heap (alter (set_noun n) l) w)
  end.

(** [stage.call(command)] *)
Definition call (s : _ssCall) (c : Command) (w : Slimshell)
    : _ssRequiring * Slimshell :=
  match s with
  | SsCall l => (SsRequiring l, set_heap (alter (set_command c) l) w)
  end.

(** [stage.requiring(requiredArguments)] *)
Definition requiring (s : _ssRequiring) (rs : list IArgumentDefinition)
    (w : Slimshell) : _ssRun * Slimshell :=
  match s with
  | SsRequiring l => (SsRun l, set_heap (alter (set_requiredArguments rs) l) w)
  end.

(** ** Lookup *)

(** [def.noun === noun]: the parsed noun is whatever minimist put first in
    its positional list, a string or a number. *)
Definition noun_matches (dn : option string) (n : option scalar) : bool :=
  match dn, n with
  | None, None => true
  | Some a, Some (SStr b) => String.eqb a b
  | _, _ => false
  end.

Definition noun_at (w : Slimshell) (n : option scalar) (l : loc) : bool :=
  match heap w !! l with
  | Some d => noun_matches (noun d) n
  | None => false
  end.

(** The definition that [find(def => def.noun === noun)] selects in the list
    the registry owns under the verb, when it owns one. *)
Definition lookup_cd (w : Slimshell) (v : string) (n : option scalar)
    : option loc :=
  match cds w !! v with
  | Some ls => List.find (noun_at w n) ls
  | None => None
  end.

(** The property names of [Array.prototype] (ECMAScript 2023). *)
Definition Array_prototype : list string :=
  ["constructor"; "at"; "concat"; "copyWithin"; "fill"; "find"; "findIndex";
   "findLast"; "findLastIndex"; "lastIndexOf"; "pop"; "push"; "reverse";
   "shift"; "unshift"; "slice"; "sort"; "splice"; "includes"; "indexOf";
   "join"; "keys"; "entries"; "values"; "forEach"; "filter"; "flat";
   "flatMap"; "map"; "every"; "some"; "reduce"; "reduceRight";
   "toLocaleString"; "toString"; "toReversed"; "toSorted"; "toSpliced";
   "with"].

(** [k] is the decimal name of an index below [n]. *)
Definition is_index (n : nat) (k : string) : bool :=
  existsb (λ i, String.eqb (pretty i) k) (seq 0 n).

(** What [this.cds], a plain object, inherits under a name it does not own:
    the properties of [Object.prototype]; and, when the exit alias
    ["__proto__"] made an array the prototype of the registry (the assignment
    [this.cds["__proto__"] = [...]] does that, and reading the name gives
    the array back), the indices and the length of that array and the
    properties of [Array.prototype] as well. *)
Definition cds_inherits (w : Slimshell) (v : string) : bool :=
  inherited v
  || match cds w !! "__proto__" with
     | Some ls =>
         bool_decide (v ∈ Array_prototype) || String.eqb v "length"
         || is_index (length ls) v
     | None => false
     end.

(** How [this.cds[verb]?.find(def => def.noun === noun)] ends: with the
    first definition of the verb's list that has the noun, with [undefined],
    or with a TypeError, when [this.cds[verb]] is an inherited property,
    which is neither undefined nor an array and has no [find]. *)
Inductive lookup_result : Type :=
  | Found (cd : loc)
  | NotFound
  | NotAnArray.

Definition cds_find (w : Slimshell) (v : string) (n : option scalar)
    : lookup_result :=
  match cds w !! v with
  | Some ls =>
      match List.find (noun_at w n) ls with
      | Some l => Found l
      | None => NotFound
      end
  | None => if cds_inherits w v then NotAnArray else NotFound
  end.

Definition find_cd (v : string) (n : option scalar) : M (option loc) :=
  λ w, match cds_find w v n with
       | Found l => Done (Some l) w
       | NotFound => Done None w
       | NotAnArray => Throw TypeError w
       end.

(** [this.cd] read through its reference; a dangling reference would be a
    read of a property of [undefined]. *)
Definition deref (l : loc) : M ICommandDefinition :=
  λ w, match heap w !! l with
       | Some d => Done d w
       | None => Throw TypeError w
       end.

(** ** Reading input *)

(** [command.split(" ")]: never empty, the empty string gives one empty atom. *)
Fixpoint split_space (s : string) : list string :=
  match s with
  | EmptyString => [""]
  | String a s' =>
      if Ascii.eqb a " "%char then "" :: split_space s'
      else match split_space s' with
           | x :: xs => String a x :: xs
           | [] => [String a ""]
           end
  end.

(** The escape key does nothing to a pending [question("> ")]: the listeners
    left by earlier prompts only reject promises that are already settled. *)
Fixpoint next_line (ins : list key_event) : option (string * list key_event) :=
  match ins with
  | [] => None
  | Line s :: rest => Some (s, rest)
  | Escape :: rest => next_line rest
  end.

Definition getCommand : M string :=
  λ w, let w1 := emit (Question "> ") w in
       match next_line (stdin w1) with
       | Some (s, rest) => Done s (set_stdin rest w1)
       | None => Blocked (set_stdin [] w1)
       end.

Inductive loop_state : Type := Running | Stopped.

(** What [while (running)] makes of the value [runCommand] returned. *)
Definition next_state (running : bool) : loop_state :=
  if running then Running else Stopped.

(** How the argument loop of [runCommand] ends when it does not throw:
    with the bag filled, or at the [return true] of the catch block. *)
Inductive resolution : Type :=
  | Resolved (args : IArguments)
  | Cancelled.

(** [args["_"].length > 0 ? args["_"][0] : undefined], for whatever the
    tokenizer left under ["_"] (minimist always leaves an array there). *)
Definition first_positional (args : IArguments) : M (option scalar) :=
  match get args "_" with
  | VArray (x :: _) => mret (Some x)
  | VArray [] => mret None
  | VScalar (SStr (String c _)) => mret (Some (SStr (String c "")))
  | VScalar _ => mret None
  | VInherited => mret None
  | VUndefined => throw TypeError
  end.

Definition log_messages (msgs : list string) (w : Slimshell) : Slimshell :=
  foldl (λ w' msg, emit (Log ("  " +:+ msg)) w') w msgs.

Section Dispatch.
(** [String.prototype.trim] and the [minimist] tokenizer. *)
Variable trim : string → string.
Variable minimist : list string → IArguments.

Definition normaliseCommand (command : string) : string := trim command.

(** One prompt: a keypress listener is added to [process.stdin] (and never
    removed), the question is written, and whichever of the line and the
    escape key comes first settles the promise. *)
Definition getArgument (req : IArgumentDefinition) : M string :=
  λ w, let w1 := set_keypress (S (keypress w)) w in
       let w2 := emit (Question ("  $" +:+ description req +:+ ": ")) w1 in
       match stdin w2 with
       | [] => Blocked w2
       | Line v :: rest => Done (trim v) (set_stdin rest w2)
       | Escape :: rest => Throw Rejected (set_stdin rest w2)
       end.

(** [while (!args[req.name]) { try { ... } catch (e) { ... return true } }] *)
Fixpoint ask (fuel : nat) (req : IArgumentDefinition) (args : IArguments)
    : M resolution :=
  if truthy (get args (name req)) then mret (Resolved args)
  else match fuel with
       | 0 => OutOfFuel
       | S fuel' =>
           r ← try_catch (v ← getArgument req; mret (Some v))
                         (modify initInput;;
                          modify (emit (Log "Cancelled"));;
                          mret None);
           match r with
           | Some v => ask fuel' req (<[name req := VStr v]> args)
           | None => mret Cancelled
           end
       end.

(** What [req.alternatives.find(alt => args[alt] !== undefined)] stores:
    the element found, which is the alternative's name. *)
Definition found_alternative (alts : list string) (args : IArguments) : value :=
  match List.find (λ alt, defined (get args alt)) alts with
  | Some alt => VStr alt
  | None => VUndefined
  end.

(** The body of [for (const req of cd.requiredArguments)]. *)
Definition resolveArgument (req : IArgumentDefinition) (args : IArguments)
    : M resolution :=
  if truthy (get args (name req)) then mret (Resolved args)
  else match alternatives req with
       | None => throw TypeError   (* undefined.find *)
       | Some alts =>
           λ w, ask (S (length (stdin w))) req
                    (<[name req := found_alternative alts args]> args) w
       end.

Fixpoint resolveArguments (reqs : list IArgumentDefinition)
    (args : IArguments) : M resolution :=
  match reqs with
  | [] => mret (Resolved args)
  | req :: rest =>
      r ← resolveArgument req args;
      match r with
      | Resolved args' => resolveArguments rest args'
      | Cancelled => mret Cancelled
      end
  end.

(** [if (cd.requiredArguments) { for ... }] *)
Definition resolve (cd : loc) (args : IArguments) : M resolution :=
  d ← deref cd;
  match requiredArguments d with
  | Some reqs => resolveArguments reqs args
  | None => mret (Resolved args)
  end.

(** The tail of [runCommand]: call the handler, print, hand back [success]. *)
Definition invoke (cd : loc) (args : IArguments) : M bool :=
  d ← deref cd;
  modify (emit (Invoke cd args));;
  let response := command d args in
  match messages response with
  | Some msgs => modify (log_messages msgs)
  | None => mret tt
  end;;
  mret (success response).

Definition runCommand (command : string) : M bool :=
  let atoms := split_space command in
  let args := minimist (tail atoms) in
  let verb := hd "" atoms in
  noun ← first_positional args;
  cd ← find_cd verb noun;
  match cd with
  | None => modify (emit (Log "  wut?"));; mret true
  | Some cd =>
      r ← resolve cd args;
      match r with
      | Cancelled => mret true
      | Resolved args' => invoke cd args'
      end
  end.

(** The body of [while (running)] in [run]. *)
Definition iteration : M bool :=
  command ← getCommand;
  runCommand (normaliseCommand command).

Fixpoint run_loop (fuel : nat) : M bool :=
  match fuel with
  | 0 => OutOfFuel
  | S fuel' =>
      running ← iteration;
      if (running : bool) then run_loop fuel' else mret true
  end.

(** [shell.run()]: every turn of the loop consumes at least one line. *)
Definition run : M bool :=
  λ w, run_loop (S (length (stdin w))) w.


End Dispatch.

(** ** Builder sequences *)

(** [shell.on(v).with(n).call(c).requiring(rs)], ready for [run()]. *)
Definition chain_full (v n : string) (c : Command)
    (rs : list IArgumentDefinition) (w : Slimshell) : _ssRun * Slimshell :=
  let '(s1, w1) := on v w in
  let '(s2, w2) := ss_with s1 n w1 in
  let '(s3, w3) := call s2 c w2 in
  requiring s3 rs w3.

(** [shell.on(v).call(c)], ready for [run()]. *)
Definition chain_short (v : string) (c : Command) (w : Slimshell)
    : _ssRun * Slimshell :=
  let '(s1, w1) := on v w in
  let '(s3, w3) := call s1 c w1 in
  (requiring_as_run s3, w3).

(** [this.cds[verb]] is neither undefined nor an array: the registry does
    not own the verb and inherits a property of that name. *)
Definition cds_blocked (w : Slimshell) (v : string) : bool :=
  match cds w !! v with
  | Some _ => false
  | None => cds_inherits w v
  end.

(** [shell.on(verb)]: for an inherited name the guard [!this.cds[verb]] sees
    a truthy value, no list is made, and [this.cds[verb].push] throws a
    TypeError; the registry is as it was. *)
Definition shell_on (v : string) : M _ssWith :=
  λ w, if cds_blocked w v then Throw TypeError w
       else Done (fst (on v w)) (snd (on v w)).

(** A stage method, which cannot throw, as a step of a builder chain. *)
Definition stage {A} (f : Slimshell → A * Slimshell) : M A :=
  λ w, Done (fst (f w)) (snd (f w)).

(** [shell.on(v).with(n).call(c).requiring(rs)] *)
Definition builder_full (v n : string) (c : Command)
    (rs : list IArgumentDefinition) : M _ssRun :=
  s1 ← shell_on v;
  s2 ← stage (ss_with s1 n);
  s3 ← stage (call s2 c);
  stage (requiring s3 rs).

(** [shell.on(v).call(c)] *)
Definition builder_short (v : string) (c : Command) : M _ssRun :=
  s1 ← shell_on v;
  s3 ← stage (call (with_as_call s1) c);
  mret (requiring_as_run s3).






(** [this.cds[v]], read as the empty list when the verb is unknown. *)
Definition specs_of (w : Slimshell) (v : string) : list loc :=
  default [] (cds w !! v).

(** ** States a program can build *)

(** The state in which an outcome leaves the shell. *)
Definition final {A} (o : outcome A) : Slimshell :=
  match o with
  | Done _ w | Throw _ w | Blocked w | OutOfFuel w => w
  end.

(** The registry, its definitions and the configured exit verbs are the same
    in both states. *)
Definition registry_eq (w w' : Slimshell) : Prop :=
  cds w' = cds w ∧ heap w' = heap w
  ∧ config_exitCommands w' = config_exitCommands w.

Definition keeps_registry {A} (m : M A) : Prop :=
  ∀ w, registry_eq w (final (m w)).

(** [built w I C]: [w] is reachable from a construction by builder calls and
    by activity that leaves the registry alone (running the loop); [I] holds
    the definitions for which [on] handed out a stage object, [C] those whose
    [call] stage ran, which are the ones with a [requiring] stage object.
    [built_on] does not ask that the call of [on] went through: [built] holds
    of every state a program can reach, and of some it cannot. *)
Inductive built : Slimshell → list loc → list loc → Prop :=
  | built_new config ins w :
      constructor config ins = Done tt w → built w [] []
  | built_on w I C v l w' :
      built w I C → on v w = (SsWith l, w') → built w' (l :: I) C
  | built_with w I C l n s w' :
      built w I C → l ∈ I → ss_with (SsWith l) n w = (s, w') → built w' I C
  | built_call w I C l c s w' :
      built w I C → l ∈ I → call (SsCall l) c w = (s, w') → built w' I (l :: C)
  | built_requiring w I C l rs s w' :
      built w I C → l ∈ C → requiring (SsRequiring l) rs w = (s, w') →
      built w' I C
  | built_io w I C w' :
      built w I C → registry_eq w w' → built w' I C.

Definition exit_spec (ec : string) : ICommandDefinition :=
  {| verb := ec; noun := None; command := exit; requiredArguments := None |}.

(** What holds of every built state. *)
Record registry_inv (w : Slimshell) (I C : list loc) : Prop := {
  (* every registered reference is live and filed under its own verb *)
  inv_filed : ∀ v ls l, cds w !! v = Some ls → l ∈ ls →
      ∃ d, heap w !! l = Some d ∧ verb d = v;
  (* the list of an exit verb starts with the built-in exit definition,
     which no stage object refers to *)
  inv_exit : ∀ ec, ec ∈ config_exitCommands w →
      ∃ l0 rest, cds w !! ec = Some (l0 :: rest)
                 ∧ heap w !! l0 = Some (exit_spec ec) ∧ l0 ∉ I;
  (* a definition handed out by on is live and in the registry *)
  inv_installed : ∀ l, l ∈ I →
      ∃ d ls, heap w !! l = Some d ∧ cds w !! verb d = Some ls ∧ l ∈ ls;
  (* until call runs, the handler is the placeholder and nothing is required *)
  inv_placeholder : ∀ l d, l ∈ I → l ∉ C → heap w !! l = Some d →
      command d = NoCommand ∧ requiredArguments d = None;
  inv_called : ∀ l, l ∈ C → l ∈ I;
}.

(** ** Prompts issued by a resolution *)

Definition prompt_text (req : IArgumentDefinition) : string :=
  "  $" +:+ description req +:+ ": ".

Definition next_handle (i : option nat) : nat :=
  match i with Some h => S h | None => 0 end.

(** What [initInput] does to the interfaces. *)
Definition reset_effects (i : option nat) : list effect :=
  match i with
  | Some h => [CloseInput h; OpenInput (S h)]
  | None => [OpenInput 0]
  end.

(** [prompted qs answers r w w']: between [w] and [w'] the questions [qs]
    were asked, [answers] are the lines typed in reply, and the resolution
    ended as [r]; when it was cancelled, the last question was met by the
    escape key, the input was reset and the notice was logged. *)
Definition prompted (qs answers : list string) (r : resolution)
    (w w' : Slimshell) : Prop :=
  registry_eq w w'
  ∧ keypress w' = keypress w + length qs
  ∧ match r with
    | Resolved _ =>
        stdin w = (Line <$> answers) ++ stdin w'
        ∧ length qs = length answers
        ∧ input w' = input w
        ∧ trace w' = trace w ++ (Question <$> qs)
    | Cancelled =>
        stdin w = (Line <$> answers) ++ Escape :: stdin w'
        ∧ length qs = S (length answers)
        ∧ input w' = Some (next_handle (input w))
        ∧ trace w' = trace w ++ (Question <$> qs)
                       ++ reset_effects (input w) ++ [Log "Cancelled"]
    end.

(** ** Notions used in the statements *)

(** Installing the exit verbs: every list holds one reference, to a
    definition that is the built-in exit under its own verb. *)
Definition exits_only (w : Slimshell) : Prop :=
  ∀ ec ls, cds w !! ec = Some ls →
    ∃ l, ls = [l] ∧ heap w !! l = Some (exit_spec ec).

(** [m] reads input without putting any back, and never runs out of fuel. *)
Definition tame {A} (m : M A) : Prop :=
  ∀ w, (length (stdin (final (m w))) ≤ length (stdin w))%nat
       ∧ ∀ w', m w ≠ OutOfFuel w'.

(** [def.noun === noun] holds: both unset, or the same string. *)
Definition same_noun (dn : option string) (n : option scalar) : Prop :=
  (dn = None ∧ n = None) ∨ ∃ s, dn = Some s ∧ n = Some (SStr s).

(** The definition behind [l] has the parsed noun [n]. *)
Definition has_noun (w : Slimshell) (n : option scalar) (l : loc) : Prop :=
  ∃ d, heap w !! l = Some d ∧ same_noun (noun d) n.

Definition is_log (e : effect) : bool :=
  match e with Log _ => true | _ => false end.

Definition is_invoke (e : effect) : bool :=
  match e with Invoke _ _ => true | _ => false end.

(** ** Concrete library functions for running examples *)

Module Sample.

Definition is_space (a : ascii) : bool :=
  let n := nat_of_ascii a in
  Nat.eqb n 32 || (Nat.leb 9 n && Nat.leb n 13).

Fixpoint trim_start (s : string) : string :=
  match s with
  | EmptyString => ""
  | String a s' => if is_space a then trim_start s' else s
  end.

Fixpoint trim_end (s : string) : string :=
  match s with
  | EmptyString => ""
  | String a s' =>
      match trim_end s' with
      | EmptyString => if is_space a then "" else String a ""
      | t => String a t
      end
  end.

(** [trim] on ASCII white space. *)
Definition trim (s : string) : string := trim_end (trim_start s).

(** What minimist returns for tokens that are neither flags nor numerals:
    all of them positional, under ["_"]. *)
Definition positionals (tokens : list string) : IArguments :=
  {["_" := VArray (SStr <$> tokens)]}.

Definition token : IArgumentDefinition :=
  {| description := "Token"; name := "token"; alternatives := Some ["t"] |}.

Definition token_bare : IArgumentDefinition :=
  {| description := "Token"; name := "token"; alternatives := None |}.

Definition token_alone : IArgumentDefinition :=
  {| description := "Token"; name := "token"; alternatives := Some [] |}.

(** A shell object before anything was registered, with [ins] to come. *)
Definition idle (ins : list key_event) : Slimshell :=
  mkShell DEFAULT_title DEFAULT_version [] ∅ [] (Some 0) 0 ins [].

Definition default_config : ISlimshellConfig :=
  {| title := None; version := None; exitCommands := Some [] |}.

(** A handler that reports the token it was given. *)
Definition echo_token : Command :=
  λ args, {| success := true;
             messages := match get args "token" with
                         | VStr s => Some [s]
                         | _ => None
                         end |}.

(** The state [new Slimshell({exitCommands: []})] leaves. *)
Definition fresh (ins : list key_event) : Slimshell :=
  final (constructor default_config ins).

(** [shell.on("login").call(echo_token).requiring([req])] on it. *)
Definition login_shell (req : IArgumentDefinition) (ins : list key_event)
    : Slimshell :=
  let '(s1, w1) := on "login" (fresh ins) in
  let '(s2, w2) := call s1 echo_token w1 in
  snd (requiring s2 [req] w2).

(** [shell.on(v)] on it, with no stage called after. *)
Definition bare_on (v : string) (ins : list key_event) : Slimshell :=
  snd (on v (fresh ins)).

(** The bag a resolution ended with. *)
Definition resolved_bag (o : outcome resolution) : IArguments :=
  match o with
  | Done (Resolved args) _ => args
  | _ => ∅
  end.

End Sample.

(** ** Further notions: interfaces, atoms, sample tokens *)

(** The readline interfaces that are open after the effects [tr]: one more
    at each [createInterface], the closed one gone at each [close]. *)
Definition interface_step (live : list nat) (e : effect) : list nat :=
  match e with
  | OpenInput h => live ++ [h]
  | CloseInput h => List.filter (λ h', negb (Nat.eqb h' h)) live
  | _ => live
  end.

Definition open_interfaces (tr : list effect) : list nat :=
  foldl interface_step [] tr.

(** The interfaces open are the one [this.input] refers to, and no other. *)
Definition one_interface (w : Slimshell) : Prop :=
  open_interfaces (trace w) = option_list (input w).

Definition is_interface (e : effect) : bool :=
  match e with
  | OpenInput _ | CloseInput _ => true
  | _ => false
  end.

(** A property of the state that the elementary updates of the dispatch
    code keep: writing a question, a log line or a handler call, consuming
    input, adding a keypress listener, resetting the input. *)
Record closed_under_io (P : Slimshell → Prop) : Prop := {
  io_emit : ∀ w e, is_interface e = false → P w → P (emit e w);
  io_stdin : ∀ w ins, P w → P (set_stdin ins w);
  io_keypress : ∀ w n, P w → P (set_keypress n w);
  io_initInput : ∀ w, P w → P (initInput w);
}.

Definition preserves {A} (P : Slimshell → Prop) (m : M A) : Prop :=
  ∀ w, P w → P (final (m w)).

(** Does the string hold a space? *)
Fixpoint has_space (s : string) : bool :=
  match s with
  | EmptyString => false
  | String a s' => Ascii.eqb a " "%char || has_space s'
  end.

(** The primary names a list of required arguments writes to. *)
Definition names (reqs : list IArgumentDefinition) : list string :=
  name <$> reqs.

Module Demo.

(** The number a string of decimal digits stands for. *)
Fixpoint digits_from (acc : Z) (s : string) : Z :=
  match s with
  | EmptyString => acc
  | String a s' =>
      digits_from (10 * acc + (Z.of_nat (nat_of_ascii a) - 48))%Z s'
  end.

Definition digits_value (s : string) : Z := digits_from 0 s.

(** What minimist returns for tokens that are all decimal numerals: the
    numbers they stand for, positional. *)
Definition numerals (tokens : list string) : IArguments :=
  {["_" := VArray ((λ t, SNum (digits_value t)) <$> tokens)]}.

(** [shell.on("show").with("404").call(echo_token)] on a new shell. *)
Definition show_shell (ins : list key_event) : Slimshell :=
  snd (chain_full "show" "404" Sample.echo_token [] (Sample.fresh ins)).

(** [shell.on("say hi").call(echo_token)] on a new shell. *)
Definition say_hi_shell (ins : list key_event) : Slimshell :=
  snd (chain_short "say hi" Sample.echo_token (Sample.fresh ins)).

Definition ask_token : IArgumentDefinition :=
  {| description := "Token"; name := "token"; alternatives := Some ["t"; "tok"] |}.

End Demo.

(** ** Builder chains in sequence, further sample shells *)



Module Cases.

(** [new Slimshell({exitCommands: ["quit"]})] *)
Definition quit_config : ISlimshellConfig :=
  {| title := None; version := None; exitCommands := Some ["quit"] |}.

(** [shell.on("quit")] on the shell made with [quit_config]: the built-in
    exit definitions are at 0 ("quit") and 1 ("exit"), the new one at 2. *)
Definition quit_shell (ins : list key_event) : Slimshell :=
  snd (on "quit" (final (constructor quit_config ins))).

Definition arg_user : IArgumentDefinition :=
  {| description := "User"; name := "user"; alternatives := Some [] |}.
Definition arg_pass : IArgumentDefinition :=
  {| description := "Password"; name := "pass"; alternatives := Some [] |}.
Definition arg_otp : IArgumentDefinition :=
  {| description := "Code"; name := "otp"; alternatives := Some [] |}.

(** [shell.on("signin").call(echo_token).requiring([user, pass, otp])] *)
Definition signin_shell (ins : list key_event) : Slimshell :=
  snd (chain_short "signin" Sample.echo_token (Sample.fresh ins)).

Definition signin_required : list IArgumentDefinition :=
  [arg_user; arg_pass; arg_otp].

Definition signin_ready (ins : list key_event) : Slimshell :=
  snd (requiring (SsRequiring 1) signin_required (signin_shell ins)).

End Cases.

(** * Properties *)

(** ** Lists and lookups *)

Lemma find_first {A} (f : A → bool) (ls : list A) (x : A) :
  List.find f ls = Some x ↔
  ∃ pre post, ls = pre ++ x :: post ∧ f x = true
              ∧ Forall (λ y, f y = false) pre.
Proof.
  induction ls as [|y ls IH]; simpl.
  - split; [done|]. intros ([|??] & ? & ? & _); done.
  - destruct (f y) eqn:Hy.
    + split.
      * intros [= ->]. exists [], ls. by repeat split.
      * intros (pre & post & Heq & Hx & Hpre).
        destruct pre as [|z pre]; simpl in Heq.
        -- congruence.
        -- injection Heq as -> ->. apply Forall_cons in Hpre as [Hz _].
           congruence.
    + rewrite IH. split.
      * intros (pre & post & -> & Hx & Hpre).
        exists (y :: pre), post. repeat split; [done|]. by constructor.
      * intros (pre & post & Heq & Hx & Hpre).
        destruct pre as [|z pre]; simpl in Heq.
        -- injection Heq as -> ->. congruence.
        -- injection Heq as -> ->. apply Forall_cons in Hpre as [_ Hpre].
           by exists pre, post.
Qed.

Lemma find_none {A} (f : A → bool) (ls : list A) :
  List.find f ls = None ↔ Forall (λ y, f y = false) ls.
Proof.
  induction ls as [|y ls IH]; simpl.
  - split; [constructor|done].
  - destruct (f y) eqn:Hy.
    + split; [done|]. intros [? _]%Forall_cons. congruence.
    + rewrite IH. split; [by constructor|]. by intros [_ ?]%Forall_cons.
Qed.

Lemma split_space_nonempty (s : string) : split_space s ≠ [].
Proof.
  induction s as [|a s IH]; simpl; [done|].
  destruct (Ascii.eqb a " "); [done|]. by destruct (split_space s).
Qed.

Lemma lookup_cd_live (w : Slimshell) (v : string) (n : option scalar) (l : loc) :
  lookup_cd w v n = Some l →
  ∃ d, heap w !! l = Some d ∧ noun_matches (noun d) n = true.
Proof.
  unfold lookup_cd. destruct (cds w !! v) as [ls|]; [|done].
  intros (pre & post & _ & Hl & _)%find_first.
  unfold noun_at in Hl. destruct (heap w !! l) as [d|]; [|done]. eauto.
Qed.

(** ** Construction *)

Lemma registry_eq_refl (w : Slimshell) : registry_eq w w.
Proof. by repeat split. Qed.

Lemma registry_eq_trans (w1 w2 w3 : Slimshell) :
  registry_eq w1 w2 → registry_eq w2 w3 → registry_eq w1 w3.
Proof. intros (?&?&?) (?&?&?). repeat split; congruence. Qed.

Lemma initInput_registry (w : Slimshell) : registry_eq w (initInput w).
Proof. unfold initInput. destruct (input w); by repeat split. Qed.

Lemma initInput_trace (w : Slimshell) :
  trace (initInput w) = trace w ++ reset_effects (input w).
Proof.
  unfold initInput. destruct (input w); simpl; [|done].
  by rewrite <- app_assoc.
Qed.

Lemma initInput_input (w : Slimshell) :
  input (initInput w) = Some (next_handle (input w)).
Proof. unfold initInput. by destruct (input w). Qed.

Lemma initInput_keypress (w : Slimshell) : keypress (initInput w) = keypress w.
Proof. unfold initInput. by destruct (input w). Qed.

Lemma initInput_stdin (w : Slimshell) : stdin (initInput w) = stdin w.
Proof. unfold initInput. by destruct (input w). Qed.

Lemma install_exit_exits_only (w : Slimshell) (ec : string) :
  exits_only w → exits_only (install_exit w ec).
Proof.
  intros Hw ec' ls. unfold install_exit; simpl.
  destruct (decide (ec = ec')) as [<-|Hne].
  - rewrite lookup_insert_eq. intros [= <-]. eexists; split; [done|].
    by rewrite lookup_app_r, Nat.sub_diag by lia.
  - rewrite lookup_insert_ne by done. intros (l & -> & Hl)%Hw.
    exists l. split; [done|]. by apply lookup_app_l_Some.
Qed.

Lemma install_exit_dom (w : Slimshell) (ec : string) :
  dom (cds (install_exit w ec)) = {[ec]} ∪ dom (cds w).
Proof. unfold install_exit; simpl. apply dom_insert_L. Qed.

Lemma install_exits_exits_only (ecs : list string) (w : Slimshell) :
  exits_only w → exits_only (foldl install_exit w ecs).
Proof.
  revert w. induction ecs as [|ec ecs IH]; intros w Hw; simpl; [done|].
  by apply IH, install_exit_exits_only.
Qed.

Lemma install_exits_dom (ecs : list string) (w : Slimshell) :
  dom (cds (foldl install_exit w ecs)) = list_to_set ecs ∪ dom (cds w).
Proof.
  revert w. induction ecs as [|ec ecs IH]; intros w; simpl.
  - set_solver.
  - rewrite IH, install_exit_dom. set_solver.
Qed.

Lemma install_exits_config (ecs : list string) (w : Slimshell) :
  config_exitCommands (foldl install_exit w ecs) = config_exitCommands w.
Proof.
  revert w. induction ecs as [|ec ecs IH]; intros w; simpl; [done|].
  by rewrite IH.
Qed.

(** With [exitCommands] supplied, construction succeeds: the verbs of the
    registry are the configured aliases and ["exit"], each with exactly one
    definition, the built-in exit. *)
Lemma constructor_with_exitCommands (t v : option string) (ecs : list string)
    (ins : list key_event) :
  ∃ w, constructor {| title := t; version := v; exitCommands := Some ecs |} ins
       = Done tt w
     ∧ config_exitCommands w = ecs ++ ["exit"]
     ∧ dom (cds w) = list_to_set (ecs ++ ["exit"])
     ∧ exits_only w.
Proof.
  unfold constructor; simpl. eexists; split; [done|].
  pose proof (initInput_registry
    (foldl install_exit
       (mkShell (or_default t DEFAULT_title) (or_default v DEFAULT_version)
                (ecs ++ DEFAULT_exitCommands) ∅ [] None 0 ins [])
       (ecs ++ DEFAULT_exitCommands))) as (Hc & Hh & He).
  split; [|split].
  - by rewrite He, install_exits_config.
  - rewrite Hc, install_exits_dom. simpl. set_solver.
  - intros ec ls. rewrite Hc, Hh. apply install_exits_exits_only.
    intros ?? Hx. simpl in Hx. by rewrite lookup_empty in Hx.
Qed.

(** ** Builder stages *)

Lemma on_ref (v : string) (w : Slimshell) :
  fst (on v w) = SsWith (length (heap w)).
Proof. unfold on. by destruct (cds w !! v). Qed.

Lemma on_heap (v : string) (w : Slimshell) :
  heap (snd (on v w))
  = heap w ++ [{| verb := v; noun := None; command := NoCommand;
                  requiredArguments := None |}].
Proof. unfold on. by destruct (cds w !! v). Qed.

Lemma on_cds (v : string) (w : Slimshell) :
  cds (snd (on v w)) = <[v := specs_of w v ++ [length (heap w)]]> (cds w).
Proof.
  unfold on, specs_of. destruct (cds w !! v) as [ls|] eqn:Hv; simpl.
  - apply map_eq; intros k. destruct (decide (v = k)) as [<-|].
    + by rewrite lookup_alter_eq, lookup_insert_eq, Hv.
    + by rewrite lookup_alter_ne, lookup_insert_ne.
  - apply map_eq; intros k. destruct (decide (v = k)) as [<-|].
    + by rewrite lookup_alter_eq, !lookup_insert_eq.
    + by rewrite lookup_alter_ne, !lookup_insert_ne.
Qed.

Lemma on_config (v : string) (w : Slimshell) :
  config_exitCommands (snd (on v w)) = config_exitCommands w.
Proof. unfold on. by destruct (cds w !! v). Qed.

Lemma registry_inv_io (w w' : Slimshell) (I C : list loc) :
  registry_inv w I C → registry_eq w w' → registry_inv w' I C.
Proof.
  intros [H1 H2 H3 H4 H5] (Hc & Hh & He).
  split; rewrite ?Hc, ?Hh, ?He; assumption.
Qed.

Lemma registry_inv_new (config : ISlimshellConfig) (ins : list key_event)
    (w : Slimshell) :
  constructor config ins = Done tt w → registry_inv w [] [].
Proof.
  destruct config as [t v [ecs|]]; [|done].
  destruct (constructor_with_exitCommands t v ecs ins)
    as (w' & -> & He & Hd & Hx).
  intros [= <-]. split.
  - intros k ls l (l' & -> & Hl')%Hx ->%list_elem_of_singleton. eauto.
  - intros ec Hec. rewrite He in Hec.
    assert (ec ∈ dom (cds w')) as [ls Hls]%elem_of_dom
      by (rewrite Hd; by apply elem_of_list_to_set).
    destruct (Hx _ _ Hls) as (l & -> & Hl).
    exists l, []. repeat split; [done..|]. by intros ?%elem_of_nil.
  - by intros l ?%elem_of_nil.
  - by intros l d ?%elem_of_nil.
  - by intros l ?%elem_of_nil.
Qed.

Lemma registry_inv_on (w : Slimshell) (I C : list loc) (v : string) :
  registry_inv w I C →
  registry_inv (snd (on v w)) (length (heap w) :: I) C.
Proof.
  intros [Hfiled Hexit Hinst Hplace Hcalled].
  set (d0 := {| verb := v; noun := None; command := NoCommand;
                requiredArguments := None |}).
  assert (Hlive : ∀ l, l ∈ I → l < length (heap w)).
  { intros l (d & ls & Hd & _)%Hinst. by eapply lookup_lt_Some. }
  assert (Hnew : (heap w ++ [d0]) !! length (heap w) = Some d0).
  { by rewrite lookup_app_r, Nat.sub_diag by lia. }
  split; rewrite ?on_cds, ?on_heap, ?on_config; fold d0.
  - intros k ls l. destruct (decide (v = k)) as [<-|Hne].
    + rewrite lookup_insert_eq. intros [= <-] [Hl|Hl]%elem_of_app.
      * unfold specs_of in Hl. destruct (cds w !! v) as [ls|] eqn:Hv;
          [|by apply elem_of_nil in Hl].
        destruct (Hfiled _ _ _ Hv Hl) as (d & Hd & Hvd).
        exists d. split; [by apply lookup_app_l_Some|done].
      * apply list_elem_of_singleton in Hl as ->. by exists d0.
    + rewrite lookup_insert_ne by done. intros Hk Hl.
      destruct (Hfiled _ _ _ Hk Hl) as (d & Hd & Hvd).
      exists d. split; [by apply lookup_app_l_Some|done].
  - intros ec (l0 & rest & Hec & Hl0 & HI)%Hexit.
    assert (l0 ≠ length (heap w)).
    { apply lookup_lt_Some in Hl0. lia. }
    destruct (decide (v = ec)) as [<-|Hne].
    + exists l0, (rest ++ [length (heap w)]).
      rewrite lookup_insert_eq. unfold specs_of. rewrite Hec.
      repeat split; [by apply lookup_app_l_Some|].
      by intros [?|?]%elem_of_cons.
    + exists l0, rest. rewrite lookup_insert_ne by done.
      repeat split; [done|by apply lookup_app_l_Some|].
      by intros [?|?]%elem_of_cons.
  - intros l [->|Hl]%elem_of_cons.
    + exists d0; eexists. split; [done|]. simpl.
      rewrite lookup_insert_eq. split; [done|].
      apply elem_of_app. right. by apply list_elem_of_singleton.
    + destruct (Hinst _ Hl) as (d & ls & Hd & Hls & Hin).
      exists d. destruct (decide (v = verb d)) as [Hv|Hne].
      * eexists. rewrite <- Hv, lookup_insert_eq.
        split; [by apply lookup_app_l_Some|]. split; [done|].
        apply elem_of_app. left. unfold specs_of. by rewrite Hv, Hls.
      * exists ls. rewrite lookup_insert_ne by done.
        split; [by apply lookup_app_l_Some|done].
  - intros l d [->|Hl]%elem_of_cons HC Hd.
    + rewrite Hnew in Hd. by injection Hd as <-.
    + rewrite lookup_app_l in Hd by auto. eauto.
  - intros l Hl. apply elem_of_cons. right. auto.
Qed.

Lemma registry_inv_called (w : Slimshell) (I C : list loc) (l : loc) :
  registry_inv w I C → l ∈ I → registry_inv w I (l :: C).
Proof.
  intros [Hfiled Hexit Hinst Hplace Hcalled] Hl. split; try done.
  - intros l' d HI HC. apply Hplace; [done|].
    intros ?. apply HC, elem_of_cons. by right.
  - by intros l' [->|?]%elem_of_cons; auto.
Qed.

(** A stage that rewrites fields other than the verb of its own definition;
    before [call] has run, only the noun can have changed. *)
Lemma registry_inv_alter (w : Slimshell) (I C : list loc) (l : loc)
    (f : ICommandDefinition → ICommandDefinition) :
  registry_inv w I C → l ∈ I →
  (∀ d, verb (f d) = verb d) →
  (l ∈ C ∨ ∀ d, command (f d) = command d
                ∧ requiredArguments (f d) = requiredArguments d) →
  registry_inv (set_heap (alter f l) w) I C.
Proof.
  intros [Hfiled Hexit Hinst Hplace Hcalled] Hl Hverb Hkeep.
  assert (Hat : ∀ l' d, alter f l (heap w) !! l' = Some d →
            ∃ d', heap w !! l' = Some d' ∧ verb d' = verb d
                  ∧ (l' ≠ l → d' = d)).
  { intros l' d. destruct (decide (l = l')) as [<-|Hne].
    - rewrite list_lookup_alter_eq.
      destruct (heap w !! l) as [d'|]; [|done]. intros [= <-].
      exists d'. by rewrite Hverb.
    - rewrite list_lookup_alter_ne by done. eauto. }
  assert (Hto : ∀ l' d, heap w !! l' = Some d →
            ∃ d', alter f l (heap w) !! l' = Some d' ∧ verb d' = verb d).
  { intros l' d Hd. destruct (decide (l = l')) as [<-|Hne].
    - rewrite list_lookup_alter_eq, Hd. eauto.
    - rewrite list_lookup_alter_ne by done. eauto. }
  split; simpl.
  - intros v ls l' Hv Hin. destruct (Hfiled _ _ _ Hv Hin) as (d & Hd & <-).
    destruct (Hto _ _ Hd) as (d' & ? & ?). eauto.
  - intros ec (l0 & rest & Hec & Hl0 & HI)%Hexit.
    exists l0, rest. repeat split; [done| |done].
    rewrite list_lookup_alter_ne; [done|]. by intros <-.
  - intros l' (d & ls & Hd & Hls & Hin)%Hinst.
    destruct (Hto _ _ Hd) as (d' & Hd' & Hv).
    exists d', ls. by rewrite Hv.
  - intros l' d HI HC Hd. destruct (decide (l = l')) as [<-|Hne].
    + destruct Hkeep as [?|Hkeep]; [done|].
      rewrite list_lookup_alter_eq in Hd.
      destruct (heap w !! l) as [d'|] eqn:Hd'; [|done].
      injection Hd as <-. destruct (Hkeep d') as [-> ->]. eauto.
    + rewrite list_lookup_alter_ne in Hd by done. eauto.
  - done.
Qed.

(** Every state a program can build satisfies the registry invariant. *)
Lemma built_inv (w : Slimshell) (I C : list loc) :
  built w I C → registry_inv w I C.
Proof.
  induction 1 as [config ins w Hnew
                 |w I C v l w' _ IH Hon
                 |w I C l n s w' _ IH Hl Hw
                 |w I C l c s w' _ IH Hl Hw
                 |w I C l rs s w' _ IH Hl Hw
                 |w I C w' _ IH Hio].
  - by eapply registry_inv_new.
  - pose proof (on_ref v w) as Hr. rewrite Hon in Hr. injection Hr as ->.
    replace w' with (snd (on v w)) by by rewrite Hon.
    by apply registry_inv_on.
  - injection Hw as _ <-. apply registry_inv_alter; [done..|]. by right.
  - injection Hw as _ <-. apply registry_inv_alter; [|done..|].
    + by apply registry_inv_called.
    + left. by apply elem_of_cons; left.
  - injection Hw as _ <-. apply registry_inv_alter; [done|..|done|by left].
    by apply (inv_called _ _ _ IH).
  - by eapply registry_inv_io.
Qed.

(** ** The monad *)

Lemma bind_unfold {A B} (m : M A) (k : A → M B) (w : Slimshell) :
  (m ≫= k) w = match m w with
               | Done a w' => k a w'
               | Throw e w' => Throw e w'
               | Blocked w' => Blocked w'
               | OutOfFuel w' => OutOfFuel w'
               end.
Proof. reflexivity. Qed.

Lemma bind_done {A B} (m : M A) (k : A → M B) (w w'' : Slimshell) (b : B) :
  (m ≫= k) w = Done b w'' ↔ ∃ a w', m w = Done a w' ∧ k a w' = Done b w''.
Proof.
  rewrite bind_unfold. split.
  - destruct (m w) as [a w'| | |]; [eauto|done..].
  - by intros (a & w' & -> & ?).
Qed.

Lemma keeps_ret {A} (a : A) : keeps_registry (mret a : M A).
Proof. intros w. apply registry_eq_refl. Qed.

Lemma keeps_throw {A} (e : js_error) : keeps_registry (throw e : M A).
Proof. intros w. apply registry_eq_refl. Qed.

Lemma keeps_bind {A B} (m : M A) (k : A → M B) :
  keeps_registry m → (∀ a, keeps_registry (k a)) → keeps_registry (m ≫= k).
Proof.
  intros Hm Hk w. rewrite bind_unfold. specialize (Hm w).
  destruct (m w) as [a w'| | |]; simpl in *; [|done..].
  eapply registry_eq_trans; [done|]. apply Hk.
Qed.

Lemma keeps_try_catch {A} (m h : M A) :
  keeps_registry m → keeps_registry h → keeps_registry (try_catch m h).
Proof.
  intros Hm Hh w. unfold try_catch. specialize (Hm w).
  destruct (m w) as [| e w' | |]; simpl in *; [done| |done..].
  eapply registry_eq_trans; [done|]. apply Hh.
Qed.

Lemma keeps_modify (f : Slimshell → Slimshell) :
  (∀ w, registry_eq w (f w)) → keeps_registry (modify f).
Proof. intros Hf w. apply Hf. Qed.

Lemma keeps_deref (l : loc) : keeps_registry (deref l).
Proof.
  intros w. unfold deref. destruct (heap w !! l); apply registry_eq_refl.
Qed.

Lemma keeps_first_positional (args : IArguments) :
  keeps_registry (first_positional args).
Proof.
  unfold first_positional.
  destruct (get args "_") as [|[[|??]| |]|[|??]|];
    first [apply keeps_ret | apply keeps_throw].
Qed.

Lemma keeps_find_cd (v : string) (n : option scalar) :
  keeps_registry (find_cd v n).
Proof.
  intros w. unfold find_cd. destruct (cds_find w v n); apply registry_eq_refl.
Qed.

Lemma find_cd_unfold (v : string) (n : option scalar) (w : Slimshell) :
  find_cd v n w
  = match cds_find w v n with
    | Found l => Done (Some l) w
    | NotFound => Done None w
    | NotAnArray => Throw TypeError w
    end.
Proof. reflexivity. Qed.

Lemma cds_find_found (w : Slimshell) (v : string) (n : option scalar)
    (l : loc) :
  cds_find w v n = Found l ↔ lookup_cd w v n = Some l.
Proof.
  unfold cds_find, lookup_cd. destruct (cds w !! v) as [ls|].
  - destruct (List.find _ ls); split; congruence.
  - destruct (cds_inherits w v); split; congruence.
Qed.

Lemma keeps_getCommand : keeps_registry getCommand.
Proof.
  intros w. unfold getCommand. simpl.
  destruct (next_line (stdin w)) as [[??]|]; by repeat split.
Qed.

Lemma keeps_emit (e : effect) : keeps_registry (modify (emit e)).
Proof. apply keeps_modify. by repeat split. Qed.

Lemma log_messages_registry (msgs : list string) (w : Slimshell) :
  registry_eq w (log_messages msgs w).
Proof.
  unfold log_messages. revert w.
  induction msgs as [|m msgs IH]; intros w; simpl.
  - apply registry_eq_refl.
  - eapply registry_eq_trans; [|apply IH]. by repeat split.
Qed.

Lemma log_messages_trace (msgs : list string) (w : Slimshell) :
  trace (log_messages msgs w)
  = trace w ++ ((λ msg, Log ("  " +:+ msg)) <$> msgs).
Proof.
  unfold log_messages. revert w.
  induction msgs as [|m msgs IH]; intros w; simpl.
  - by rewrite app_nil_r.
  - rewrite IH. simpl. by rewrite <- app_assoc.
Qed.

Section DispatchFacts.
Variable trim : string → string.
Variable minimist : list string → IArguments.

Lemma keeps_getArgument (req : IArgumentDefinition) :
  keeps_registry (getArgument trim req).
Proof.
  intros w. unfold getArgument. simpl.
  destruct (stdin w) as [|[?|] ?]; by repeat split.
Qed.

Lemma keeps_ask (fuel : nat) (req : IArgumentDefinition) (args : IArguments) :
  keeps_registry (ask trim fuel req args).
Proof.
  revert args. induction fuel as [|fuel IH]; intros args; simpl;
    destruct (truthy (get args (name req))); try apply keeps_ret.
  - intros w. apply registry_eq_refl.
  - apply keeps_bind.
    + apply keeps_try_catch.
      * apply keeps_bind; [apply keeps_getArgument|]. intros. apply keeps_ret.
      * apply keeps_bind; [apply keeps_modify, initInput_registry|].
        intros _. apply keeps_bind; [apply keeps_emit|].
        intros _. apply keeps_ret.
    + intros [v|]; [apply IH|apply keeps_ret].
Qed.

Lemma keeps_resolveArgument (req : IArgumentDefinition) (args : IArguments) :
  keeps_registry (resolveArgument trim req args).
Proof.
  unfold resolveArgument.
  destruct (truthy (get args (name req))); [apply keeps_ret|].
  destruct (alternatives req); [|apply keeps_throw].
  intros w. apply keeps_ask.
Qed.

Lemma keeps_resolveArguments (reqs : list IArgumentDefinition)
    (args : IArguments) :
  keeps_registry (resolveArguments trim reqs args).
Proof.
  revert args. induction reqs as [|req reqs IH]; intros args; simpl.
  - apply keeps_ret.
  - apply keeps_bind; [apply keeps_resolveArgument|].
    intros [args'|]; [apply IH|apply keeps_ret].
Qed.

Lemma keeps_resolve (cd : loc) (args : IArguments) :
  keeps_registry (resolve trim cd args).
Proof.
  apply keeps_bind; [apply keeps_deref|]. intros d.
  destruct (requiredArguments d);
    [apply keeps_resolveArguments|apply keeps_ret].
Qed.

Lemma keeps_invoke (cd : loc) (args : IArguments) :
  keeps_registry (invoke cd args).
Proof.
  apply keeps_bind; [apply keeps_deref|]. intros d.
  apply keeps_bind; [apply keeps_emit|]. intros _.
  apply keeps_bind; [|intros; apply keeps_ret].
  destruct (messages (command d args));
    [apply keeps_modify, log_messages_registry|apply keeps_ret].
Qed.

Lemma keeps_runCommand (command : string) :
  keeps_registry (runCommand trim minimist command).
Proof.
  apply keeps_bind; [apply keeps_first_positional|]. intros noun.
  apply keeps_bind; [apply keeps_find_cd|]. intros [cd|].
  - apply keeps_bind; [apply keeps_resolve|].
    intros [args'|]; [apply keeps_invoke|apply keeps_ret].
  - apply keeps_bind; [apply keeps_emit|]. intros; apply keeps_ret.
Qed.

Lemma keeps_iteration : keeps_registry (iteration trim minimist).
Proof.
  apply keeps_bind; [apply keeps_getCommand|].
  intros; apply keeps_runCommand.
Qed.



End DispatchFacts.

(** ** What a resolution does to the input and the trace *)

Lemma prompted_none (args : IArguments) (w : Slimshell) :
  prompted [] [] (Resolved args) w w.
Proof.
  split; [apply registry_eq_refl|]. simpl.
  repeat split; [lia|by rewrite app_nil_r].
Qed.

Lemma prompted_app (qs1 qs2 as1 as2 : list string) (args : IArguments)
    (r : resolution) (w1 w2 w3 : Slimshell) :
  prompted qs1 as1 (Resolved args) w1 w2 → prompted qs2 as2 r w2 w3 →
  prompted (qs1 ++ qs2) (as1 ++ as2) r w1 w3.
Proof.
  intros (Hr1 & Hk1 & Hs1 & Hl1 & Hi1 & Ht1) (Hr2 & Hk2 & H2).
  split; [by eapply registry_eq_trans|].
  split; [rewrite length_app; lia|].
  destruct r as [args'|].
  - destruct H2 as (Hs2 & Hl2 & Hi2 & Ht2).
    rewrite Hs1, Hs2, Ht2, Ht1, Hi2, Hi1, !fmap_app, !length_app,
      <- !app_assoc.
    repeat split; lia.
  - destruct H2 as (Hs2 & Hl2 & Hi2 & Ht2).
    rewrite Hs1, Hs2, Ht2, Ht1, Hi2, Hi1, !fmap_app, !length_app,
      <- !app_assoc.
    repeat split; lia.
Qed.

Section ResolutionFacts.
Variable trim : string → string.

(** A prompt answered by a line. *)
Lemma getArgument_line (req : IArgumentDefinition) (w : Slimshell)
    (v : string) (rest : list key_event) :
  stdin w = Line v :: rest →
  ∃ w', getArgument trim req w = Done (trim v) w'
      ∧ ∀ args, prompted [prompt_text req] [v] (Resolved args) w w'.
Proof.
  intros Hin. unfold getArgument. simpl. rewrite Hin.
  eexists; split; [done|]. intros args.
  split; [by repeat split|]. simpl. rewrite Hin.
  repeat split. lia.
Qed.

(** A prompt met by the escape key: the promise is rejected. *)
Lemma getArgument_escape (req : IArgumentDefinition) (w : Slimshell)
    (rest : list key_event) :
  stdin w = Escape :: rest →
  getArgument trim req w
  = Throw Rejected
      (set_stdin rest
         (emit (Question (prompt_text req))
            (set_keypress (S (keypress w)) w))).
Proof. intros Hin. unfold getArgument. simpl. by rewrite Hin. Qed.

Lemma ask_prompted (fuel : nat) (req : IArgumentDefinition)
    (args : IArguments) (w : Slimshell) (r : resolution) (w' : Slimshell) :
  ask trim fuel req args w = Done r w' →
  ∃ qs answers, prompted qs answers r w w'.
Proof.
  revert args w. induction fuel as [|fuel IH]; intros args w; simpl;
    destruct (truthy (get args (name req))).
  - intros [= <- <-]. exists [], []. apply prompted_none.
  - done.
  - intros [= <- <-]. exists [], []. apply prompted_none.
  - rewrite bind_unfold. unfold try_catch. rewrite bind_unfold.
    destruct (stdin w) as [|[v|] rest] eqn:Hin.
    + unfold getArgument. simpl. by rewrite Hin.
    + destruct (getArgument_line req w v rest Hin) as (w1 & -> & Hp).
      simpl. intros (qs & answers & Hq)%IH.
      exists ([prompt_text req] ++ qs), ([v] ++ answers).
      eapply prompted_app; [apply (Hp args)|done].
    + rewrite (getArgument_escape req w rest Hin). simpl.
      intros [= <- <-]. exists [prompt_text req], [].
      split; [|split].
      * pose proof (initInput_registry
          (set_stdin rest (emit (Question (prompt_text req))
             (set_keypress (S (keypress w)) w)))) as (?&?&?).
        by repeat split.
      * simpl. rewrite initInput_keypress. simpl. lia.
      * simpl. rewrite initInput_stdin, initInput_input, initInput_trace.
        simpl. rewrite Hin, <- !app_assoc. by repeat split.
Qed.

Lemma resolveArgument_prompted (req : IArgumentDefinition)
    (args : IArguments) (w : Slimshell) (r : resolution) (w' : Slimshell) :
  resolveArgument trim req args w = Done r w' →
  ∃ qs answers, prompted qs answers r w w'.
Proof.
  unfold resolveArgument. destruct (truthy (get args (name req))).
  - intros [= <- <-]. exists [], []. apply prompted_none.
  - destruct (alternatives req); [|done]. apply ask_prompted.
Qed.

Lemma resolveArguments_prompted (reqs : list IArgumentDefinition)
    (args : IArguments) (w : Slimshell) (r : resolution) (w' : Slimshell) :
  resolveArguments trim reqs args w = Done r w' →
  ∃ qs answers, prompted qs answers r w w'.
Proof.
  revert args w. induction reqs as [|req reqs IH]; intros args w; simpl.
  - intros [= <- <-]. exists [], []. apply prompted_none.
  - intros (r1 & w1 & H1 & H2)%bind_done.
    apply resolveArgument_prompted in H1 as (qs1 & as1 & Hp1).
    destruct r1 as [args1|].
    + apply IH in H2 as (qs2 & as2 & Hp2).
      exists (qs1 ++ qs2), (as1 ++ as2). by eapply prompted_app.
    + injection H2 as <- <-. eauto.
Qed.

Lemma resolve_prompted (cd : loc) (args : IArguments) (w : Slimshell)
    (r : resolution) (w' : Slimshell) :
  resolve trim cd args w = Done r w' →
  ∃ qs answers, prompted qs answers r w w'.
Proof.
  intros (d & w1 & H1 & H2)%bind_done.
  unfold deref in H1. destruct (heap w !! cd) as [d0|]; [|done].
  injection H1 as <- <-.
  destruct (requiredArguments d0).
  - by apply resolveArguments_prompted in H2.
  - injection H2 as <- <-. exists [], []. apply prompted_none.
Qed.

(** The fuel handed to the prompt loop is never used up. *)
Lemma ask_fuel (fuel : nat) (req : IArgumentDefinition) (args : IArguments)
    (w : Slimshell) :
  length (stdin w) < fuel →
  ∀ w', ask trim fuel req args w ≠ OutOfFuel w'.
Proof.
  revert args w. induction fuel as [|fuel IH]; intros args w Hlt w';
    [lia|]. simpl.
  destruct (truthy (get args (name req))); [done|].
  rewrite bind_unfold. unfold try_catch. rewrite bind_unfold.
  unfold getArgument. simpl.
  destruct (stdin w) as [|[v|] rest] eqn:Hin; simpl; [done| |done].
  apply IH. simpl in *. lia.
Qed.

End ResolutionFacts.

(** ** The loops always have fuel enough *)

Lemma tame_ret {A} (a : A) : tame (mret a : M A).
Proof. intros w. split; [done|]. by intros w'. Qed.

Lemma tame_throw {A} (e : js_error) : tame (throw e : M A).
Proof. intros w. split; [done|]. by intros w'. Qed.

Lemma tame_bind {A B} (m : M A) (k : A → M B) :
  tame m → (∀ a, tame (k a)) → tame (m ≫= k).
Proof.
  intros Hm Hk w. rewrite bind_unfold. destruct (Hm w) as [Hlen Hfuel].
  destruct (m w) as [a w1|e w1|w1|w1]; simpl in *;
    [|by split..|by destruct (Hfuel w1)].
  destruct (Hk a w1) as [Hlen' Hfuel']. split; [lia|done].
Qed.

Lemma tame_modify (f : Slimshell → Slimshell) :
  (∀ w, stdin (f w) = stdin w) → tame (modify f).
Proof. intros Hf w. simpl. rewrite Hf. split; [done|]. by intros w'. Qed.

Lemma log_messages_stdin (msgs : list string) (w : Slimshell) :
  stdin (log_messages msgs w) = stdin w.
Proof.
  unfold log_messages. revert w.
  induction msgs as [|m msgs IH]; intros w; simpl; [done|].
  by rewrite IH.
Qed.

Section Fuel.
Variable trim : string → string.
Variable minimist : list string → IArguments.

Lemma ask_tame (fuel : nat) (req : IArgumentDefinition) (args : IArguments)
    (w : Slimshell) :
  length (stdin w) < fuel →
  (length (stdin (final (ask trim fuel req args w))) ≤ length (stdin w))%nat
  ∧ ∀ w', ask trim fuel req args w ≠ OutOfFuel w'.
Proof.
  intros Hlt. split; [|by apply ask_fuel].
  revert args w Hlt. induction fuel as [|fuel IH]; intros args w Hlt;
    [lia|]. simpl.
  destruct (truthy (get args (name req))); [done|].
  rewrite bind_unfold. unfold try_catch. rewrite bind_unfold.
  unfold getArgument. simpl.
  destruct (stdin w) as [|[v|] rest] eqn:Hin; simpl.
  - by rewrite Hin.
  - etrans; [apply IH; simpl; simpl in Hlt; lia|]. simpl. lia.
  - rewrite initInput_stdin. simpl. lia.
Qed.

Lemma tame_resolveArguments (reqs : list IArgumentDefinition)
    (args : IArguments) :
  tame (resolveArguments trim reqs args).
Proof.
  revert args. induction reqs as [|req reqs IH]; intros args; simpl.
  - apply tame_ret.
  - apply tame_bind.
    + unfold resolveArgument.
      destruct (truthy (get args (name req))); [apply tame_ret|].
      destruct (alternatives req); [|apply tame_throw].
      intros w. apply ask_tame. lia.
    + intros [args'|]; [apply IH|apply tame_ret].
Qed.

Lemma tame_deref (l : loc) : tame (deref l).
Proof.
  intros w. unfold deref. destruct (heap w !! l); split; done.
Qed.

Lemma tame_runCommand (command : string) :
  tame (runCommand trim minimist command).
Proof.
  apply tame_bind.
  { unfold first_positional.
    destruct (get _ "_") as [|[[|??]| |]|[|??]|];
      first [apply tame_ret | apply tame_throw]. }
  intros noun. apply tame_bind.
  { intros w. unfold find_cd. by destruct (cds_find w _ noun). }
  intros [cd|].
  - apply tame_bind.
    + apply tame_bind; [apply tame_deref|]. intros d.
      destruct (requiredArguments d);
        [apply tame_resolveArguments|apply tame_ret].
    + intros [args'|]; [|apply tame_ret].
      apply tame_bind; [apply tame_deref|]. intros d.
      apply tame_bind; [by apply tame_modify|]. intros _.
      apply tame_bind; [|intros; apply tame_ret].
      destruct (messages _);
        [apply tame_modify, log_messages_stdin|apply tame_ret].
  - apply tame_bind; [by apply tame_modify|]. intros; apply tame_ret.
Qed.

Lemma next_line_shorter (ins rest : list key_event) (s : string) :
  next_line ins = Some (s, rest) → length rest < length ins.
Proof.
  induction ins as [|[v|] ins IH]; simpl; [done| |].
  - intros [= _ <-]. lia.
  - intros ?%IH. lia.
Qed.

(** [run] always comes to an end that the source has: it returns, throws,
    or waits for input that the user never types. *)
Lemma run_loop_fuel (fuel : nat) (w : Slimshell) :
  length (stdin w) < fuel →
  ∀ w', run_loop trim minimist fuel w ≠ OutOfFuel w'.
Proof.
  revert w. induction fuel as [|fuel IH]; intros w Hlt w'; [lia|].
  simpl. rewrite bind_unfold. unfold iteration. rewrite bind_unfold.
  unfold getCommand. simpl.
  destruct (next_line (stdin w)) as [[s rest]|] eqn:Hnext; [|done].
  apply next_line_shorter in Hnext.
  destruct (tame_runCommand (normaliseCommand trim s)
              (set_stdin rest (emit (Question "> ") w))) as [Hlen Hfuel].
  destruct (runCommand trim minimist (normaliseCommand trim s) _)
    as [[|] w1|e w1|w1|w1]; simpl in *; [|done..|by destruct (Hfuel w1)].
  apply IH. lia.
Qed.

Lemma run_total (w : Slimshell) :
  ∀ w', run trim minimist w ≠ OutOfFuel w'.
Proof. apply run_loop_fuel. lia. Qed.

End Fuel.

(** ** Argument resolution *)

Section Resolution.
Variable trim : string → string.

Lemma truthy_get_insert (args : IArguments) (k s : string) :
  s ≠ "" → truthy (get (<[k := VStr s]> args) k) = true.
Proof.
  intros Hs. unfold get. rewrite lookup_insert_eq. simpl.
  destruct (String.eqb_spec s ""); done.
Qed.

(** When an alternative is present, what lands under the primary name is
    the name of the first such alternative, and no prompt is issued. *)
Lemma resolveArgument_alternative (req : IArgumentDefinition)
    (args : IArguments) (alts : list string) (alt : string) (w : Slimshell) :
  truthy (get args (name req)) = false →
  alternatives req = Some alts →
  List.find (λ a, defined (get args a)) alts = Some alt →
  alt ≠ "" →
  resolveArgument trim req args w
  = Done (Resolved (<[name req := VStr alt]> args)) w.
Proof.
  intros Hf Ha Hfind Hne. unfold resolveArgument, found_alternative.
  rewrite Hf, Ha, Hfind. simpl. by rewrite truthy_get_insert.
Qed.

Lemma resolveArgument_truthy (req : IArgumentDefinition) (args : IArguments)
    (w : Slimshell) :
  truthy (get args (name req)) = true →
  resolveArgument trim req args w = Done (Resolved args) w.
Proof. intros Ht. unfold resolveArgument. by rewrite Ht. Qed.

Lemma resolveArguments_truthy (reqs : list IArgumentDefinition)
    (args : IArguments) (w : Slimshell) :
  Forall (λ req, truthy (get args (name req)) = true) reqs →
  resolveArguments trim reqs args w = Done (Resolved args) w.
Proof.
  induction 1 as [|req reqs Hreq _ IH]; simpl; [done|].
  by rewrite bind_unfold, resolveArgument_truthy.
Qed.

(** The prompt loop writes under the name of its own argument only, and
    only while what is there is falsy. *)
Lemma ask_keeps_truthy (fuel : nat) (req : IArgumentDefinition)
    (args args' : IArguments) (w w' : Slimshell) (k : string) :
  ask trim fuel req args w = Done (Resolved args') w' →
  truthy (get args k) = true → get args' k = get args k.
Proof.
  revert args w. induction fuel as [|fuel IH]; intros args w; simpl;
    destruct (truthy (get args (name req))) eqn:Ht;
    try (by intros [= <- <-]).
  intros (r & w1 & _ & Hk)%bind_done Hkt.
  destruct r as [v|]; [|done].
  assert (name req ≠ k) as Hne by (intros <-; congruence).
  rewrite (IH _ _ Hk).
  - unfold get. by rewrite lookup_insert_ne.
  - unfold get. by rewrite lookup_insert_ne.
Qed.

Lemma resolveArgument_keeps_truthy (req : IArgumentDefinition)
    (args args' : IArguments) (w w' : Slimshell) (k : string) :
  resolveArgument trim req args w = Done (Resolved args') w' →
  truthy (get args k) = true → get args' k = get args k.
Proof.
  unfold resolveArgument.
  destruct (truthy (get args (name req))) eqn:Ht; [by intros [= <- <-]|].
  destruct (alternatives req) as [alts|]; [|done].
  intros Hask Hkt.
  assert (name req ≠ k) as Hne by (intros <-; congruence).
  rewrite (ask_keeps_truthy _ _ _ _ _ _ _ Hask).
  - unfold get. by rewrite lookup_insert_ne.
  - unfold get. by rewrite lookup_insert_ne.
Qed.

Lemma resolveArguments_keeps_truthy (reqs : list IArgumentDefinition)
    (args args' : IArguments) (w w' : Slimshell) (k : string) :
  resolveArguments trim reqs args w = Done (Resolved args') w' →
  truthy (get args k) = true → get args' k = get args k.
Proof.
  revert args w. induction reqs as [|req reqs IH]; intros args w; simpl.
  - by intros [= <- <-].
  - intros (r & w1 & H1 & H2)%bind_done Hkt.
    destruct r as [args1|]; [|done].
    pose proof (resolveArgument_keeps_truthy _ _ _ _ _ _ H1 Hkt) as Heq.
    rewrite (IH _ _ H2); [done|]. by rewrite Heq.
Qed.

(** C1. A required argument "token" with alternatives ["t"] and the bag
    {t: "abc"}: resolution ends without a prompt, and what it stores under
    "token" is the alternative's name "t", not the value "abc" that the
    alternative holds. *)
Theorem alternative_name_stored_not_value (w : Slimshell) :
  resolveArguments trim [Sample.token] {["t" := VStr "abc"]} w
  = Done (Resolved (<["token" := VStr "t"]> {["t" := VStr "abc"]})) w
  ∧ get (<["token" := VStr "t"]> {["t" := VStr "abc"]}) "token" = VStr "t"
  ∧ get (<["token" := VStr "t"]> {["t" := VStr "abc"]}) "token"
    ≠ get {["t" := VStr "abc"]} "t".
Proof.
  split; [|split]; [|done..].
  simpl. rewrite bind_unfold.
  by rewrite (resolveArgument_alternative Sample.token _ ["t"] "t").
Qed.

(** A name that the bag neither owns nor inherits reads as falsy, and as
    undefined. *)
Lemma missing_name_reads_falsy (args : IArguments) (k : string) :
  args !! k = None → inherited k = false →
  get args k = VUndefined ∧ truthy (get args k) = false.
Proof. intros Hk Hi. unfold get. by rewrite Hk, Hi. Qed.

(** C3. A required argument without an [alternatives] field whose primary
    name reads as falsy in the bag, as it does when the name is missing
    from the bag and is not a name the bag inherits, makes resolution throw
    a TypeError, before any prompt is issued: the state is the one
    resolution started in. *)
Theorem missing_alternatives_throws (req : IArgumentDefinition)
    (rest : list IArgumentDefinition) (args : IArguments) (w : Slimshell) :
  alternatives req = None →
  truthy (get args (name req)) = false →
  resolveArguments trim (req :: rest) args w = Throw TypeError w.
Proof.
  intros Ha Hn. simpl. rewrite bind_unfold. unfold resolveArgument.
  by rewrite Hn, Ha.
Qed.

(** C4 (amended). A required argument whose primary name holds a truthy
    value (a non-empty string, a non-zero number, true, or a list) is not
    prompted for and the bag is left as it is; when every required
    argument is so, the whole resolution ends at once with the bag
    unchanged; and whatever else a completed resolution asks for, a truthy
    value of the bag is still there at the end. *)
Theorem truthy_argument_left_alone (args : IArguments) (w : Slimshell) :
  (∀ req, truthy (get args (name req)) = true →
     resolveArgument trim req args w = Done (Resolved args) w)
  ∧ (∀ reqs, Forall (λ req, truthy (get args (name req)) = true) reqs →
       resolveArguments trim reqs args w = Done (Resolved args) w)
  ∧ (∀ reqs args' w' k,
       resolveArguments trim reqs args w = Done (Resolved args') w' →
       truthy (get args k) = true → get args' k = get args k).
Proof.
  split; [|split].
  - intros. by apply resolveArgument_truthy.
  - intros. by apply resolveArguments_truthy.
  - intros. by eapply resolveArguments_keeps_truthy.
Qed.

End Resolution.

Lemma missing_alternatives_throws_witness :
  resolveArguments Sample.trim [Sample.token_bare] ∅ (Sample.idle [Line "abc"])
  = Throw TypeError (Sample.idle [Line "abc"]).
Proof.
  apply (missing_alternatives_throws Sample.trim Sample.token_bare [] ∅
           (Sample.idle [Line "abc"])); reflexivity.
Defined.

Lemma truthy_argument_left_alone_witness :
  resolveArgument Sample.trim Sample.token_alone {["token" := VStr "abc"]}
    (Sample.idle [Line "xyz"])
  = Done (Resolved {["token" := VStr "abc"]}) (Sample.idle [Line "xyz"]).
Proof.
  apply (proj1 (truthy_argument_left_alone Sample.trim
                  {["token" := VStr "abc"]} (Sample.idle [Line "xyz"]))).
  reflexivity.
Defined.

(** C4, as stated, at the empty string: "token" is present in the bag with
    the value "", and resolution prompts for it all the same and replaces
    the value by the line typed. *)
Lemma empty_string_is_prompted_for :
  ({["token" := VStr ""]} : IArguments) !! "token" = Some (VStr "")
  ∧ resolveArgument Sample.trim Sample.token_alone {["token" := VStr ""]}
      (Sample.idle [Line "xyz"])
    = Done (Resolved {["token" := VStr "xyz"]})
        (mkShell DEFAULT_title DEFAULT_version [] ∅ [] (Some 0) 1 []
                 [Question "  $Token: "]).
Proof. split; [reflexivity|]. vm_compute. reflexivity. Qed.

(** ** Construction *)

(** C2. A configuration that omits [exitCommands] makes the constructor
    throw a TypeError (spreading undefined); nothing gets registered. *)
Theorem constructor_without_exitCommands_throws (t v : option string)
    (ins : list key_event) :
  constructor {| title := t; version := v; exitCommands := None |} ins
  = Throw TypeError
      (mkShell DEFAULT_title DEFAULT_version [] ∅ [] None 0 ins []).
Proof. reflexivity. Qed.

(** ** Lookup *)

Lemma noun_matches_spec (dn : option string) (n : option scalar) :
  noun_matches dn n = true ↔ same_noun dn n.
Proof.
  unfold same_noun. destruct dn as [a|], n as [[b| |]|]; simpl; split;
    try done; try naive_solver.
  - intros ->%String.eqb_eq. right. eauto.
  - intros [[??]|(s & [= ->] & [= ->])]; [done|]. apply String.eqb_refl.
Qed.

Lemma noun_at_spec (w : Slimshell) (n : option scalar) (l : loc) :
  noun_at w n l = true ↔ has_noun w n l.
Proof.
  unfold noun_at, has_noun. destruct (heap w !! l) as [d|].
  - rewrite noun_matches_spec. naive_solver.
  - naive_solver.
Qed.

Lemma noun_at_false (w : Slimshell) (n : option scalar) (l : loc) :
  noun_at w n l = false ↔ ¬ has_noun w n l.
Proof.
  rewrite <- noun_at_spec. destruct (noun_at w n l); naive_solver.
Qed.

Lemma lookup_cd_first (w : Slimshell) (v : string) (n : option scalar)
    (l : loc) :
  lookup_cd w v n = Some l ↔
  ∃ pre post, cds w !! v = Some (pre ++ l :: post) ∧ has_noun w n l
              ∧ Forall (λ l', ¬ has_noun w n l') pre.
Proof.
  unfold lookup_cd. destruct (cds w !! v) as [ls|].
  - rewrite find_first. split.
    + intros (pre & post & -> & Hl & Hpre). exists pre, post.
      split; [done|]. split; [by apply noun_at_spec|].
      eapply Forall_impl; [done|]. intros ?. apply noun_at_false.
    + intros (pre & post & [= ->] & Hl & Hpre). exists pre, post.
      split; [done|]. split; [by apply noun_at_spec|].
      eapply Forall_impl; [done|]. intros ?. apply noun_at_false.
  - split; [done|]. by intros (? & ? & ? & _).
Qed.

(** A definition that [on] registered under an exit verb and that has no
    noun is never what lookup returns: the built-in exit definition stands
    before it in the list and has no noun either. *)
Lemma exit_verb_shadowed (w : Slimshell) (I C : list loc) (l : loc)
    (d : ICommandDefinition) :
  built w I C → l ∈ I → heap w !! l = Some d →
  verb d ∈ config_exitCommands w → noun d = None →
  ∀ v n, lookup_cd w v n ≠ Some l.
Proof.
  intros [Hfiled Hexit _ _ _]%built_inv Hl Hd Hverb Hnoun v n.
  intros (pre & post & Hv & (d' & Hd' & Hn) & Hpre)%lookup_cd_first.
  assert (d' = d) as -> by congruence.
  destruct (Hfiled v (pre ++ l :: post) l Hv) as (d' & Hd'' & <-).
  { apply elem_of_app. right. by apply elem_of_cons; left. }
  assert (d' = d) as -> by congruence.
  destruct (Hexit _ Hverb) as (l0 & rest & Hec & Hl0 & HI).
  rewrite Hv in Hec. destruct pre as [|l1 pre]; simpl in Hec.
  - injection Hec as -> _. done.
  - injection Hec as -> _. apply Forall_cons in Hpre as [Hl1 _].
    apply Hl1. exists (exit_spec (verb d)). split; [done|].
    simpl. rewrite Hnoun in Hn. by destruct Hn as [[_ ->]|(? & ? & _)];
      [left|].
Qed.

Lemma cds_find_first (w : Slimshell) (v : string) (n : option scalar)
    (l : loc) :
  cds_find w v n = Found l ↔
  ∃ pre post, cds w !! v = Some (pre ++ l :: post) ∧ has_noun w n l
              ∧ Forall (λ l', ¬ has_noun w n l') pre.
Proof. rewrite cds_find_found. apply lookup_cd_first. Qed.

Lemma cds_find_not_found (w : Slimshell) (v : string) (n : option scalar) :
  cds_find w v n = NotFound ↔
  (∃ ls, cds w !! v = Some ls ∧ Forall (λ l', ¬ has_noun w n l') ls)
  ∨ (cds w !! v = None ∧ cds_inherits w v = false).
Proof.
  unfold cds_find. destruct (cds w !! v) as [ls|].
  - destruct (List.find _ ls) as [l|] eqn:Hfind.
    + split; [done|]. intros [(ls' & [= <-] & Hall)|[[=] _]].
      apply find_first in Hfind as (pre & post & -> & Hl & _).
      apply Forall_app in Hall as [_ [Hno _]%Forall_cons].
      by apply noun_at_spec in Hl.
    + split; [|done]. intros _. left. exists ls. split; [done|].
      apply find_none in Hfind. eapply Forall_impl; [done|].
      intros ?. apply noun_at_false.
  - destruct (cds_inherits w v); split; try done.
    + intros [(? & [=] & _)|[_ [=]]].
    + intros _. by right.
Qed.

Lemma cds_find_not_array (w : Slimshell) (v : string) (n : option scalar) :
  cds_find w v n = NotAnArray ↔ cds w !! v = None ∧ cds_inherits w v = true.
Proof.
  unfold cds_find. destruct (cds w !! v) as [ls|].
  - destruct (List.find _ ls); split; try done; by intros [[=] _].
  - destruct (cds_inherits w v); split; try done. by intros [_ [=]].
Qed.

Lemma built_config (w : Slimshell) (I C : list loc) :
  built w I C → ∃ ecs, config_exitCommands w = ecs ++ ["exit"].
Proof.
  induction 1 as [config ins w Hnew
                 |w I C v l w' _ IH Hon
                 |w I C l n s w' _ IH Hl Hw
                 |w I C l c s w' _ IH Hl Hw
                 |w I C l rs s w' _ IH Hl Hw
                 |w I C w' _ IH Hio].
  - destruct config as [t v [ecs|]]; [|done].
    destruct (constructor_with_exitCommands t v ecs ins)
      as (w' & Hw' & He & _).
    rewrite Hw' in Hnew. injection Hnew as <-. eauto.
  - replace w' with (snd (on v w)) by by rewrite Hon. by rewrite on_config.
  - by injection Hw as _ <-.
  - by injection Hw as _ <-.
  - by injection Hw as _ <-.
  - destruct Hio as (_ & _ & ->). done.
Qed.

(** C5. Lookup by (verb, noun) returns the first definition, in the order
    of insertion under that verb, whose noun equals the parsed noun, two
    unset nouns being equal; it returns nothing when the verb's list has no
    such definition or the verb is unknown, and throws when the registry
    inherits a property under the verb.  Construction with [exitCommands]
    makes the exit verbs the aliases and "exit", and no builder stage
    changes them; so in every state a program can build, "exit" is an exit
    verb, every exit verb without a noun selects its built-in exit
    definition, and a definition registered by [on] under an exit verb and
    left without a noun is never selected. *)
Theorem lookup_first_match_exit_first :
  (∀ w v n l,
     cds_find w v n = Found l ↔
     ∃ pre post, cds w !! v = Some (pre ++ l :: post) ∧ has_noun w n l
                 ∧ Forall (λ l', ¬ has_noun w n l') pre)
  ∧ (∀ w v n,
       cds_find w v n = NotFound ↔
       (∃ ls, cds w !! v = Some ls ∧ Forall (λ l', ¬ has_noun w n l') ls)
       ∨ (cds w !! v = None ∧ cds_inherits w v = false))
  ∧ (∀ w v n,
       cds_find w v n = NotAnArray ↔
       cds w !! v = None ∧ cds_inherits w v = true)
  ∧ same_noun None None
  ∧ (∀ t v ecs ins,
       ∃ w, constructor {| title := t; version := v;
                           exitCommands := Some ecs |} ins = Done tt w
            ∧ built w [] []
            ∧ config_exitCommands w = ecs ++ ["exit"])
  ∧ (∀ w v n c rs l,
       config_exitCommands (snd (on v w)) = config_exitCommands w
       ∧ config_exitCommands (snd (ss_with (SsWith l) n w))
         = config_exitCommands w
       ∧ config_exitCommands (snd (call (SsCall l) c w))
         = config_exitCommands w
       ∧ config_exitCommands (snd (requiring (SsRequiring l) rs w))
         = config_exitCommands w)
  ∧ (∀ w I C,
       built w I C →
       "exit" ∈ config_exitCommands w
       ∧ (∀ ec, ec ∈ config_exitCommands w →
            ∃ l0, cds_find w ec None = Found l0
                  ∧ heap w !! l0 = Some (exit_spec ec) ∧ l0 ∉ I)
       ∧ (∀ l d,
            l ∈ I → heap w !! l = Some d →
            verb d ∈ config_exitCommands w → noun d = None →
            ∀ v n, cds_find w v n ≠ Found l)).
Proof.
  split; [apply cds_find_first|].
  split; [apply cds_find_not_found|].
  split; [apply cds_find_not_array|].
  split; [by left|]. split; [|split].
  - intros t v ecs ins.
    destruct (constructor_with_exitCommands t v ecs ins)
      as (w & Hw & He & _).
    exists w. split; [done|]. split; [|done]. by eapply built_new.
  - intros w v n c rs l. by rewrite on_config.
  - intros w I C Hb. split; [|split].
    + destruct (built_config _ _ _ Hb) as (ecs & ->).
      apply elem_of_app. right. apply list_elem_of_here.
    + intros ec Hec. pose proof (built_inv _ _ _ Hb) as Hinv.
      destruct (inv_exit _ _ _ Hinv _ Hec) as (l0 & rest & Hv & Hl0 & HI).
      exists l0. split; [|done]. apply cds_find_found.
      unfold lookup_cd. rewrite Hv. simpl. unfold noun_at. by rewrite Hl0.
    + intros l d Hl Hd Hverb Hnoun v n Hfind%cds_find_found.
      by eapply exit_verb_shadowed.
Qed.

(** ** Builder sequences *)

















(** ** Dispatch *)

Lemma questions_no_log (qs : list string) :
  List.filter is_log (Question <$> qs) = [].
Proof. induction qs as [|q qs IH]; simpl; done. Qed.

Lemma questions_no_invoke (qs : list string) :
  List.filter is_invoke (Question <$> qs) = [].
Proof. induction qs as [|q qs IH]; simpl; done. Qed.

Lemma first_positional_pure (args : IArguments) (w w' : Slimshell)
    (n : option scalar) :
  first_positional args w = Done n w' → w' = w.
Proof.
  unfold first_positional.
  destruct (get args "_") as [|[[|??]| |]|[|??]|]; simpl;
    by first [intros [= _ <-] | intros [=]].
Qed.

Lemma invoke_spec (l : loc) (args : IArguments) (w : Slimshell)
    (d : ICommandDefinition) :
  heap w !! l = Some d →
  invoke l args w
  = Done (success (command d args))
      (log_messages (default [] (messages (command d args)))
         (emit (Invoke l args) w)).
Proof.
  intros Hd. unfold invoke. rewrite bind_unfold. unfold deref. rewrite Hd.
  rewrite bind_unfold. simpl. rewrite bind_unfold.
  by destruct (messages (command d args)).
Qed.

Section DispatchProperties.
Variable trim : string → string.
Variable minimist : list string → IArguments.

Lemma runCommand_unmatched (line : string) (w : Slimshell)
    (n : option scalar) :
  first_positional (minimist (tail (split_space line))) w = Done n w →
  cds_find w (hd "" (split_space line)) n = NotFound →
  runCommand trim minimist line w = Done true (emit (Log "  wut?") w).
Proof.
  intros Hn Hl. unfold runCommand. rewrite bind_unfold, Hn, bind_unfold.
  by rewrite find_cd_unfold, Hl.
Qed.

Lemma runCommand_not_array (line : string) (w : Slimshell)
    (n : option scalar) :
  first_positional (minimist (tail (split_space line))) w = Done n w →
  cds_find w (hd "" (split_space line)) n = NotAnArray →
  runCommand trim minimist line w = Throw TypeError w.
Proof.
  intros Hn Hl. unfold runCommand. rewrite bind_unfold, Hn, bind_unfold.
  by rewrite find_cd_unfold, Hl.
Qed.

Lemma runCommand_matched (line : string) (w : Slimshell)
    (n : option scalar) (l : loc) :
  first_positional (minimist (tail (split_space line))) w = Done n w →
  lookup_cd w (hd "" (split_space line)) n = Some l →
  runCommand trim minimist line w
  = match resolve trim l (minimist (tail (split_space line))) w with
    | Done Cancelled w1 => Done true w1
    | Done (Resolved args') w1 => invoke l args' w1
    | Throw e w1 => Throw e w1
    | Blocked w1 => Blocked w1
    | OutOfFuel w1 => OutOfFuel w1
    end.
Proof.
  intros Hn Hl%cds_find_found. unfold runCommand.
  rewrite bind_unfold, Hn, bind_unfold, find_cd_unfold, Hl, bind_unfold.
  by destruct (resolve _ _ _ _) as [[?|] ?| | |].
Qed.

Lemma run_loop_step (fuel : nat) (w w' : Slimshell) (b : bool) :
  iteration trim minimist w = Done b w' →
  run_loop trim minimist (S fuel) w
  = match next_state b with
    | Running => run_loop trim minimist fuel w'
    | Stopped => Done true w'
    end.
Proof. intros Hi. simpl. rewrite bind_unfold, Hi. by destruct b. Qed.

(** One turn of the loop, from the line the user types. *)
Lemma run_loop_line (fuel : nat) (w : Slimshell) (s : string)
    (rest : list key_event) :
  stdin w = Line s :: rest →
  run_loop trim minimist (S fuel) w
  = match runCommand trim minimist (normaliseCommand trim s)
            (set_stdin rest (emit (Question "> ") w)) with
    | Done b w1 =>
        match next_state b with
        | Running => run_loop trim minimist fuel w1
        | Stopped => Done true w1
        end
    | Throw e w1 => Throw e w1
    | Blocked w1 => Blocked w1
    | OutOfFuel w1 => OutOfFuel w1
    end.
Proof.
  intros Hin. simpl. rewrite bind_unfold. unfold iteration.
  rewrite bind_unfold. unfold getCommand. simpl. rewrite Hin. simpl.
  by destruct (runCommand _ _ _ _) as [[|] ?| | |].
Qed.


Lemma resolveArguments_app (pre post : list IArgumentDefinition)
    (args : IArguments) (w : Slimshell) :
  resolveArguments trim (pre ++ post) args w
  = match resolveArguments trim pre args w with
    | Done (Resolved args1) w1 => resolveArguments trim post args1 w1
    | Done Cancelled w1 => Done Cancelled w1
    | Throw e w1 => Throw e w1
    | Blocked w1 => Blocked w1
    | OutOfFuel w1 => OutOfFuel w1
    end.
Proof.
  revert args w. induction pre as [|req pre IH]; intros args w; simpl;
    [done|].
  rewrite !bind_unfold.
  by destruct (resolveArgument trim req args w) as [[args1|] w1| | |].
Qed.

(** The escape key at the prompt of an argument, after any number of blank
    answers: the prompt loop ends as cancelled, with the input reset and
    the notice logged. *)
Lemma ask_escape (req : IArgumentDefinition) (rest : list key_event)
    (blanks : list string) :
  ∀ (fuel : nat) (args : IArguments) (w : Slimshell),
    truthy (get args (name req)) = false →
    stdin w = (Line <$> blanks) ++ Escape :: rest →
    Forall (λ b, trim b = "") blanks →
    length blanks < fuel →
    ∃ w2,
      ask trim fuel req args w = Done Cancelled w2
      ∧ stdin w2 = rest
      ∧ trace w2
        = trace w
            ++ (Question <$> replicate (S (length blanks)) (prompt_text req))
            ++ reset_effects (input w) ++ [Log "Cancelled"]
      ∧ input w2 = Some (next_handle (input w))
      ∧ registry_eq w w2.
Proof.
  induction blanks as [|b blanks IH]; intros fuel args w Hf Hin Hbl Hlt;
    (destruct fuel as [|fuel]; [simpl in Hlt; lia|]); simpl; rewrite Hf;
    rewrite bind_unfold; unfold try_catch; rewrite bind_unfold;
    unfold getArgument; simpl; rewrite Hin; simpl.
  - eexists. split; [done|]. simpl.
    rewrite initInput_stdin, initInput_trace, initInput_input. simpl.
    rewrite <- !app_assoc. repeat split;
      by destruct (initInput_registry
        (set_stdin rest (emit (Question ("  $" +:+ description req +:+ ": "))
           (set_keypress (S (keypress w)) w)))) as (?&?&?).
  - apply Forall_cons in Hbl as [Hb Hbl]. rewrite Hb.
    edestruct (IH fuel (<[name req := VStr ""]> args)
                 (set_stdin ((Line <$> blanks) ++ Escape :: rest)
                    (emit (Question ("  $" +:+ description req +:+ ": "))
                       (set_keypress (S (keypress w)) w))))
      as (w2 & Hask & Hs & Ht & Hi & Hr); try done.
    + unfold get. by rewrite lookup_insert_eq.
    + simpl in Hlt. lia.
    + exists w2. split; [exact Hask|]. split; [done|].
      simpl in *. rewrite Ht, Hi, <- !app_assoc. repeat split; apply Hr.
Qed.

(** C7. The escape key at the prompt of any required argument aborts the
    whole command.  A matched definition requires [pre ++ req :: post];
    the arguments [pre] are resolved, [req] has to be prompted for, and
    after any number of blank answers the escape key arrives.  Then the
    arguments [post] are never asked for and no handler is invoked; the
    dispatch hands [true] to the loop, which stays Running, and no bag comes
    out of it; what happened is the questions, the reset of the input
    interface, and one notice, "Cancelled"; what was typed after the escape
    key is still there, and the registry is untouched. *)
Theorem cancellation_aborts_command (line : string) (w : Slimshell)
    (n : option scalar) (l : loc) (d : ICommandDefinition)
    (pre post : list IArgumentDefinition) (req : IArgumentDefinition)
    (alts : list string) (args1 : IArguments) (w1 : Slimshell)
    (blanks : list string) (rest : list key_event) :
  let args := minimist (tail (split_space line)) in
  let v := hd "" (split_space line) in
  first_positional args w = Done n w →
  cds_find w v n = Found l →
  heap w !! l = Some d →
  requiredArguments d = Some (pre ++ req :: post) →
  resolveArguments trim pre args w = Done (Resolved args1) w1 →
  truthy (get args1 (name req)) = false →
  alternatives req = Some alts →
  truthy (found_alternative alts args1) = false →
  stdin w1 = (Line <$> blanks) ++ Escape :: rest →
  Forall (λ b, trim b = "") blanks →
  ∃ w2 qs delta,
    runCommand trim minimist line w = Done true w2
    ∧ next_state true = Running
    ∧ stdin w2 = rest
    ∧ trace w2 = trace w ++ delta
    ∧ delta = (Question <$> qs) ++ reset_effects (input w)
                ++ [Log "Cancelled"]
    ∧ List.filter is_log delta = [Log "Cancelled"]
    ∧ List.filter is_invoke delta = []
    ∧ input w2 = Some (next_handle (input w))
    ∧ registry_eq w w2.
Proof.
  intros args v Hn Hl%cds_find_found Hd Hreq Hpre Hf Ha Hfa Hin Hbl.
  destruct (resolveArguments_prompted _ _ _ _ _ _ Hpre)
    as (qs1 & as1 & Hreg1 & _ & _ & _ & Hi1 & Ht1).
  destruct (ask_escape req rest blanks (S (length (stdin w1)))
              (<[name req := found_alternative alts args1]> args1) w1)
    as (w2 & Hask & Hs2 & Ht2 & Hi2 & Hreg2); try done.
  { unfold get. by rewrite lookup_insert_eq. }
  { rewrite Hin, length_app, length_fmap. lia. }
  assert (resolve trim l args w = Done Cancelled w2) as Hres.
  { unfold resolve. rewrite bind_unfold. unfold deref. rewrite Hd, Hreq.
    rewrite resolveArguments_app, Hpre. simpl. rewrite bind_unfold.
    unfold resolveArgument. by rewrite Hf, Ha, Hask. }
  exists w2, (qs1 ++ replicate (S (length blanks)) (prompt_text req)).
  eexists. split.
  { rewrite (runCommand_matched line w n l Hn Hl). fold args.
    by rewrite Hres. }
  split; [done|]. split; [done|]. split.
  { rewrite Ht2, Ht1, Hi1, <- !app_assoc. reflexivity. }
  split; [by rewrite fmap_app, <- app_assoc|].
  split.
  { rewrite !List.filter_app, !questions_no_log. by destruct (input w). }
  split.
  { rewrite !List.filter_app, !questions_no_invoke. by destruct (input w). }
  split; [by rewrite Hi2, Hi1|].
  by eapply registry_eq_trans.
Qed.

(** C8. Every prompt of a resolution adds a keypress listener to
    [process.stdin] and none is taken off, not by an answer, not by
    a cancellation, not by the reset of the input interface: after a
    cancelled resolution there are strictly more listeners than before. *)
Theorem prompts_leave_listeners (l : loc) (args : IArguments)
    (w : Slimshell) (r : resolution) (w1 : Slimshell) :
  resolve trim l args w = Done r w1 →
  ∃ qs,
    trace w1
    = trace w ++ (Question <$> qs)
        ++ match r with
           | Cancelled => reset_effects (input w) ++ [Log "Cancelled"]
           | Resolved _ => []
           end
    ∧ keypress w1 = keypress w + length qs
    ∧ (r = Cancelled → keypress w < keypress w1)
    ∧ keypress (initInput w1) = keypress w1.
Proof.
  intros (qs & answers & _ & Hk & Hr)%resolve_prompted.
  exists qs. split; [|split; [done|split]].
  - destruct r; destruct Hr as (_ & _ & _ & ->); [|done].
    by rewrite app_nil_r.
  - intros ->. destruct Hr as (_ & Hlen & _). lia.
  - apply initInput_keypress.
Qed.

Lemma resolve_nothing_required (l : loc) (args : IArguments)
    (w : Slimshell) (d : ICommandDefinition) :
  heap w !! l = Some d → requiredArguments d = None →
  resolve trim l args w = Done (Resolved args) w.
Proof.
  intros Hd Hr. unfold resolve. rewrite bind_unfold. unfold deref.
  by rewrite Hd, Hr.
Qed.

(** C10 (amended). A definition that [on] registered and whose [call]
    stage never ran is in the registry, under its verb, with the
    placeholder as handler and nothing required; every dispatch that
    selects it invokes the placeholder, prints nothing and hands [true]
    to the loop, which stays Running; and it is selected for its verb and
    noun whenever no definition before it in the list has that noun. *)
Theorem uncalled_definition_runs_placeholder (w : Slimshell)
    (I C : list loc) (l : loc) :
  built w I C → l ∈ I → l ∉ C →
  ∃ d ls,
    heap w !! l = Some d
    ∧ command d = NoCommand ∧ requiredArguments d = None
    ∧ cds w !! verb d = Some ls ∧ l ∈ ls
    ∧ (∀ line n,
         first_positional (minimist (tail (split_space line))) w = Done n w →
         lookup_cd w (hd "" (split_space line)) n = Some l →
         runCommand trim minimist line w
         = Done true
             (emit (Invoke l (minimist (tail (split_space line)))) w))
    ∧ next_state true = Running
    ∧ (∀ n pre post,
         ls = pre ++ l :: post → has_noun w n l →
         Forall (λ l', ¬ has_noun w n l') pre →
         lookup_cd w (verb d) n = Some l).
Proof.
  intros Hb HI HC. pose proof (built_inv _ _ _ Hb) as Hinv.
  destruct (inv_installed _ _ _ Hinv l HI) as (d & ls & Hd & Hls & Hin).
  destruct (inv_placeholder _ _ _ Hinv l d HI HC Hd) as [Hcmd Hreq].
  exists d, ls. repeat split; try done.
  - intros line n Hn Hl. rewrite (runCommand_matched line w n l Hn Hl).
    rewrite (resolve_nothing_required l _ w d Hd Hreq).
    rewrite (invoke_spec l _ w d Hd), Hcmd. done.
  - intros n pre post -> Hl Hpre. apply lookup_cd_first. eauto.
Qed.

End DispatchProperties.

(** ** The theorems at work on concrete shells *)

Lemma fresh_constructed (ins : list key_event) :
  constructor Sample.default_config ins = Done tt (Sample.fresh ins).
Proof. reflexivity. Qed.

Lemma bare_on_built (v : string) (ins : list key_event) :
  built (Sample.bare_on v ins) [1] [].
Proof.
  apply (built_on (Sample.fresh ins) [] [] v 1).
  - apply (built_new Sample.default_config ins). reflexivity.
  - unfold Sample.bare_on. rewrite (surjective_pairing (on v _)).
    by rewrite on_ref.
Qed.

Lemma quit_shell_built (ins : list key_event) :
  built (Cases.quit_shell ins) [2] [].
Proof.
  apply (built_on (final (constructor Cases.quit_config ins)) [] [] "quit" 2).
  - apply (built_new Cases.quit_config ins). reflexivity.
  - unfold Cases.quit_shell. rewrite (surjective_pairing (on "quit" _)).
    by rewrite on_ref.
Qed.

Lemma lookup_first_match_exit_first_witness :
  "quit" ∈ config_exitCommands (Cases.quit_shell [])
  ∧ heap (Cases.quit_shell []) !! 2
    = Some {| verb := "quit"; noun := None; command := NoCommand;
              requiredArguments := None |}
  ∧ cds_find (Cases.quit_shell []) "quit" None ≠ Found 2.
Proof.
  assert ("quit" ∈ config_exitCommands (Cases.quit_shell [])) as Hq
    by (vm_compute; apply list_elem_of_here).
  assert (heap (Cases.quit_shell []) !! 2
          = Some {| verb := "quit"; noun := None; command := NoCommand;
                    requiredArguments := None |}) as Hd
    by (vm_compute; reflexivity).
  split; [exact Hq|]. split; [exact Hd|].
  destruct (proj2 (proj2 (proj2 (proj2 (proj2 (proj2
              lookup_first_match_exit_first)))))
              (Cases.quit_shell []) [2] [] (quit_shell_built []))
    as (_ & _ & Hnever).
  apply (Hnever 2 _ (list_elem_of_here 2 []) Hd Hq eq_refl).
Defined.



Lemma cancellation_aborts_command_witness :
  ∃ w2 qs delta,
    runCommand Sample.trim Sample.positionals "signin"
      (Cases.signin_ready [Line "bob"; Line "  "; Escape; Line "exit"])
    = Done true w2
    ∧ next_state true = Running
    ∧ stdin w2 = [Line "exit"]
    ∧ trace w2
      = trace (Cases.signin_ready
                 [Line "bob"; Line "  "; Escape; Line "exit"]) ++ delta
    ∧ delta
      = (Question <$> qs)
          ++ reset_effects
               (input (Cases.signin_ready
                         [Line "bob"; Line "  "; Escape; Line "exit"]))
          ++ [Log "Cancelled"]
    ∧ List.filter is_log delta = [Log "Cancelled"]
    ∧ List.filter is_invoke delta = []
    ∧ input w2
      = Some (next_handle
                (input (Cases.signin_ready
                          [Line "bob"; Line "  "; Escape; Line "exit"])))
    ∧ registry_eq
        (Cases.signin_ready [Line "bob"; Line "  "; Escape; Line "exit"]) w2.
Proof.
  apply (cancellation_aborts_command Sample.trim Sample.positionals "signin"
           (Cases.signin_ready [Line "bob"; Line "  "; Escape; Line "exit"])
           None 1
           {| verb := "signin"; noun := None; command := Sample.echo_token;
              requiredArguments := Some Cases.signin_required |}
           [Cases.arg_user] [Cases.arg_otp] Cases.arg_pass []
           (<["user" := VStr "bob"]> (Sample.positionals []))
           (final (resolveArguments Sample.trim [Cases.arg_user]
                     (Sample.positionals [])
                     (Cases.signin_ready
                        [Line "bob"; Line "  "; Escape; Line "exit"])))
           ["  "] [Line "exit"]).
  - vm_compute; reflexivity.
  - vm_compute; reflexivity.
  - vm_compute; reflexivity.
  - reflexivity.
  - vm_compute; reflexivity.
  - vm_compute; reflexivity.
  - reflexivity.
  - vm_compute; reflexivity.
  - vm_compute; reflexivity.
  - repeat constructor.
Defined.

Lemma prompts_leave_listeners_witness :
  ∃ qs,
    trace (final (resolve Sample.trim 1 (Sample.positionals [])
                    (Sample.login_shell Sample.token_alone [Escape])))
    = trace (Sample.login_shell Sample.token_alone [Escape])
        ++ (Question <$> qs)
        ++ reset_effects (input (Sample.login_shell Sample.token_alone [Escape]))
        ++ [Log "Cancelled"]
    ∧ keypress (final (resolve Sample.trim 1 (Sample.positionals [])
                         (Sample.login_shell Sample.token_alone [Escape])))
      = keypress (Sample.login_shell Sample.token_alone [Escape]) + length qs
    ∧ (Cancelled = Cancelled →
       keypress (Sample.login_shell Sample.token_alone [Escape])
       < keypress (final (resolve Sample.trim 1 (Sample.positionals [])
                            (Sample.login_shell Sample.token_alone [Escape]))))
    ∧ keypress (initInput
                  (final (resolve Sample.trim 1 (Sample.positionals [])
                            (Sample.login_shell Sample.token_alone [Escape]))))
      = keypress (final (resolve Sample.trim 1 (Sample.positionals [])
                           (Sample.login_shell Sample.token_alone [Escape]))).
Proof.
  apply (prompts_leave_listeners Sample.trim 1 (Sample.positionals [])
           (Sample.login_shell Sample.token_alone [Escape]) Cancelled).
  vm_compute; reflexivity.
Defined.

Lemma uncalled_definition_runs_placeholder_witness :
  runCommand Sample.trim Sample.positionals "ping" (Sample.bare_on "ping" [])
  = Done true
      (emit (Invoke 1 (Sample.positionals [])) (Sample.bare_on "ping" [])).
Proof.
  destruct (uncalled_definition_runs_placeholder Sample.trim
              Sample.positionals (Sample.bare_on "ping" []) [1] [] 1
              (bare_on_built "ping" []) (list_elem_of_here 1 [])
              (not_elem_of_nil 1))
    as (d & ls & _ & _ & _ & _ & _ & Hrun & _).
  apply (Hrun "ping" None); vm_compute; reflexivity.
Defined.

(** C10, as stated, at the verb "exit": [on("exit")] on a new shell installs
    a definition with the placeholder handler, at reference 1; dispatching
    "exit" invokes the built-in exit handler at reference 0 instead, which
    prints "byeee" and stops the loop. *)
Lemma on_exit_verb_runs_exit_handler :
  fst (on "exit" (Sample.fresh [])) = SsWith 1
  ∧ heap (Sample.bare_on "exit" []) !! 1
    = Some {| verb := "exit"; noun := None; command := NoCommand;
              requiredArguments := None |}
  ∧ runCommand Sample.trim Sample.positionals "exit" (Sample.bare_on "exit" [])
    = Done false
        (emit (Log "  byeee")
           (emit (Invoke 0 (Sample.positionals []))
              (Sample.bare_on "exit" [])))
  ∧ next_state false = Stopped.
Proof. repeat split; vm_compute; reflexivity. Qed.

(** Two commands cancelled one after the other leave two keypress
    listeners on [process.stdin]. *)
Example two_cancellations_two_listeners :
  keypress
    (final (run Sample.trim Sample.positionals
              (Sample.login_shell Sample.token_alone
                 [Line "login"; Escape; Line "login"; Escape; Line "exit"])))
  = 2.
Proof. vm_compute. reflexivity. Qed.

(** A session: a prompt cancelled, the command given again and answered,
    then exit. *)
Example session_trace :
  trace
    (final (run Sample.trim Sample.positionals
              (Sample.login_shell Sample.token_alone
                 [Line "login"; Escape; Line " login "; Line ""; Line " xyz ";
                  Line "exit"])))
  = [OpenInput 0;
     Question "> "; Question "  $Token: ";
     CloseInput 0; OpenInput 1; Log "Cancelled";
     Question "> "; Question "  $Token: "; Question "  $Token: ";
     Invoke 1 (<["token" := VStr "xyz"]> (Sample.positionals []));
     Log "  xyz";
     Question "> "; Invoke 0 (Sample.positionals []); Log "  byeee"].
Proof. vm_compute. reflexivity. Qed.

(** With the aliases supplied, the registry has one exit definition per
    exit verb. *)
Example construction_with_aliases :
  (cds (final (constructor {| title := None; version := None;
                              exitCommands := Some ["quit"; "q"] |} [])))
  = {["quit" := [0]; "q" := [1]; "exit" := [2]]}.
Proof. vm_compute. reflexivity. Qed.

(** Names that plain objects inherit.  [on("constructor")] throws and
    registers nothing; a required argument named "constructor" is taken as
    given, and so is one whose alternative is "toString", which gets the
    alternative's name; with the exit alias "__proto__" the registry
    inherits from the alias's list, and the line "push" throws. *)
Example on_constructor_throws :
  builder_short "constructor" NoCommand (Sample.fresh [])
  = Throw TypeError (Sample.fresh [])
  ∧ builder_full "toString" "x" NoCommand [] (Sample.fresh [])
    = Throw TypeError (Sample.fresh []).
Proof. split; vm_compute; reflexivity. Qed.

Example inherited_argument_is_not_prompted_for :
  resolveArgument Sample.trim
    {| description := "Ctor"; name := "constructor"; alternatives := None |}
    (Sample.positionals []) (Sample.idle [Line "abc"])
  = Done (Resolved (Sample.positionals [])) (Sample.idle [Line "abc"])
  ∧ resolveArgument Sample.trim
      {| description := "Token"; name := "token";
         alternatives := Some ["toString"] |}
      (Sample.positionals []) (Sample.idle [Line "abc"])
    = Done (Resolved (<["token" := VStr "toString"]> (Sample.positionals [])))
        (Sample.idle [Line "abc"]).
Proof. split; vm_compute; reflexivity. Qed.

Example proto_alias_inherits_from_its_list :
  cds_find (final (constructor {| title := None; version := None;
                                  exitCommands := Some ["__proto__"] |} []))
    "push" None
  = NotAnArray
  ∧ cds_find (final (constructor {| title := None; version := None;
                                    exitCommands := Some ["__proto__"] |} []))
      "0" None
    = NotAnArray
  ∧ cds_find (final (constructor {| title := None; version := None;
                                    exitCommands := Some ["__proto__"] |} []))
      "__proto__" None
    = Found 0
  ∧ cds_find (Sample.fresh []) "push" None = NotFound.
Proof. repeat split; vm_compute; reflexivity. Qed.

(** * Further properties of the code *)

(** ** Construction and the exit verbs *)

Lemma install_exits_rest (ecs : list string) (w : Slimshell) :
  input (foldl install_exit w ecs) = input w
  ∧ trace (foldl install_exit w ecs) = trace w
  ∧ keypress (foldl install_exit w ecs) = keypress w
  ∧ stdin (foldl install_exit w ecs) = stdin w
  ∧ config_title (foldl install_exit w ecs) = config_title w
  ∧ config_version (foldl install_exit w ecs) = config_version w.
Proof.
  revert w. induction ecs as [|ec ecs IH]; intros w; simpl; [done|].
  destruct (IH (install_exit w ec)) as (-> & -> & -> & -> & -> & ->). done.
Qed.

Lemma or_default_nonempty (a : option string) (b : string) :
  b ≠ "" → or_default a b ≠ "".
Proof.
  intros Hb. unfold or_default. destruct a as [s|]; [|done].
  by destruct (String.eqb_spec s "").
Qed.

(** X1. With [exitCommands] supplied, construction succeeds: the exit verbs
    are the aliases followed by "exit"; the registry has exactly these
    verbs, each with a single definition, the built-in exit without noun or
    required arguments, also when an alias is repeated or is "exit" itself;
    one readline interface is open, no keypress listener is attached and no
    input is consumed; title and version are never empty. *)
Theorem construction_installs_exit_verbs (t v : option string)
    (ecs : list string) (ins : list key_event) :
  ∃ w,
    constructor {| title := t; version := v; exitCommands := Some ecs |} ins
    = Done tt w
    ∧ config_exitCommands w = ecs ++ ["exit"]
    ∧ dom (cds w) = list_to_set (ecs ++ ["exit"])
    ∧ (∀ ec ls, cds w !! ec = Some ls →
         ∃ l, ls = [l] ∧ heap w !! l = Some (exit_spec ec))
    ∧ input w = Some 0 ∧ trace w = [OpenInput 0]
    ∧ keypress w = 0 ∧ stdin w = ins
    ∧ config_title w ≠ "" ∧ config_version w ≠ "".
Proof.
  destruct (constructor_with_exitCommands t v ecs ins)
    as (w & Hw & He & Hd & Hx).
  exists w. split; [done|]. split; [done|]. split; [done|]. split; [done|].
  unfold constructor in Hw. simpl in Hw. injection Hw as <-.
  set (w0 := mkShell _ _ _ _ _ _ _ _ _).
  destruct (install_exits_rest (ecs ++ DEFAULT_exitCommands) w0)
    as (Hi & Ht & Hk & Hs & Hti & Hve).
  rewrite initInput_input, initInput_trace, initInput_keypress,
    initInput_stdin, Hi, Ht, Hk, Hs.
  repeat split.
  - unfold initInput. rewrite Hi. simpl. rewrite Hti. simpl.
    by apply or_default_nonempty.
  - unfold initInput. rewrite Hi. simpl. rewrite Hve. simpl.
    by apply or_default_nonempty.
Qed.

Lemma exit_dispatch (trim : string → string)
    (minimist : list string → IArguments) (w : Slimshell) (I C : list loc)
    (line : string) :
  built w I C →
  hd "" (split_space line) ∈ config_exitCommands w →
  first_positional (minimist (tail (split_space line))) w = Done None w →
  ∃ l0 rest,
    cds w !! hd "" (split_space line) = Some (l0 :: rest)
    ∧ heap w !! l0 = Some (exit_spec (hd "" (split_space line)))
    ∧ runCommand trim minimist line w
      = Done false
          (emit (Log "  byeee")
             (emit (Invoke l0 (minimist (tail (split_space line)))) w)).
Proof.
  intros Hb Hec Hn. pose proof (built_inv _ _ _ Hb) as Hinv.
  destruct (inv_exit _ _ _ Hinv _ Hec) as (l0 & rest & Hv & Hl0 & _).
  exists l0, rest. split; [done|]. split; [done|].
  assert (lookup_cd w (hd "" (split_space line)) None = Some l0) as Hl.
  { unfold lookup_cd. rewrite Hv. simpl. unfold noun_at. by rewrite Hl0. }
  rewrite (runCommand_matched trim minimist line w None l0 Hn Hl).
  rewrite (resolve_nothing_required trim l0 _ w _ Hl0 eq_refl).
  by rewrite (invoke_spec l0 _ w _ Hl0).
Qed.

(** X2. In every state a program can build, a line whose first atom is a
    configured exit verb and that has no positional token runs the built-in
    exit handler, whatever was registered under that verb since: it prints
    "byeee" and returns false, which stops the loop. *)
Theorem exit_verb_always_exits (trim : string → string)
    (minimist : list string → IArguments) (w : Slimshell) (I C : list loc)
    (line : string) :
  built w I C →
  hd "" (split_space line) ∈ config_exitCommands w →
  first_positional (minimist (tail (split_space line))) w = Done None w →
  ∃ l0,
    lookup_cd w (hd "" (split_space line)) None = Some l0
    ∧ heap w !! l0 = Some (exit_spec (hd "" (split_space line)))
    ∧ runCommand trim minimist line w
      = Done false
          (emit (Log "  byeee")
             (emit (Invoke l0 (minimist (tail (split_space line)))) w))
    ∧ next_state false = Stopped.
Proof.
  intros Hb Hec Hn.
  destruct (exit_dispatch trim minimist w I C line Hb Hec Hn)
    as (l0 & rest & Hv & Hl0 & Hrun).
  exists l0. repeat split; try done.
  unfold lookup_cd. rewrite Hv. simpl. unfold noun_at. by rewrite Hl0.
Qed.

Lemma login_shell_built (req : IArgumentDefinition) (ins : list key_event) :
  built (Sample.login_shell req ins) [1] [1].
Proof.
  apply (built_requiring
           (snd (call (SsCall 1) Sample.echo_token (Sample.bare_on "login" ins)))
           [1] [1] 1 [req] (SsRun 1)).
  - apply (built_call (Sample.bare_on "login" ins) [1] [] 1
             Sample.echo_token (SsRequiring 1)).
    + apply bare_on_built.
    + apply list_elem_of_here.
    + reflexivity.
  - apply list_elem_of_here.
  - unfold Sample.login_shell, Sample.bare_on.
    pose proof (on_ref "login" (Sample.fresh ins)) as Hr.
    destruct (on "login" (Sample.fresh ins)) as [s1 w1].
    simpl in Hr. subst s1. reflexivity.
Qed.

Lemma exit_verb_always_exits_witness :
  ∃ l0,
    lookup_cd (Sample.login_shell Sample.token [])
      (hd "" (split_space "exit")) None = Some l0
    ∧ heap (Sample.login_shell Sample.token []) !! l0
      = Some (exit_spec (hd "" (split_space "exit")))
    ∧ runCommand Sample.trim Sample.positionals "exit"
        (Sample.login_shell Sample.token [])
      = Done false
          (emit (Log "  byeee")
             (emit (Invoke l0 (Sample.positionals (tail (split_space "exit"))))
                (Sample.login_shell Sample.token [])))
    ∧ next_state false = Stopped.
Proof.
  apply (exit_verb_always_exits Sample.trim Sample.positionals
           (Sample.login_shell Sample.token []) [1] [1]).
  - apply login_shell_built.
  - vm_compute. apply list_elem_of_here.
  - vm_compute; reflexivity.
Defined.

Lemma split_space_no_space (s : string) :
  has_space s = false → split_space s = [s].
Proof.
  induction s as [|a s IH]; simpl; [done|].
  destruct (Ascii.eqb a " "); simpl; [done|].
  intros Hs. by rewrite (IH Hs).
Qed.

(** X4. [run] on a built shell whose user types an exit verb first: the
    loop asks once, consumes that one line and nothing after it, runs the
    built-in exit handler, prints "byeee" and returns true. *)
Theorem run_returns_on_exit (trim : string → string)
    (minimist : list string → IArguments) (w : Slimshell) (I C : list loc)
    (s : string) (rest : list key_event) :
  built w I C →
  stdin w = Line s :: rest →
  trim s ∈ config_exitCommands w →
  has_space (trim s) = false →
  get (minimist []) "_" = VArray [] →
  ∃ l0,
    heap w !! l0 = Some (exit_spec (trim s))
    ∧ run trim minimist w
      = Done true
          (emit (Log "  byeee")
             (emit (Invoke l0 (minimist []))
                (set_stdin rest (emit (Question "> ") w)))).
Proof.
  intros Hb Hin Hec Hsp Hpos.
  set (w0 := set_stdin rest (emit (Question "> ") w)).
  assert (built w0 I C) as Hb0.
  { apply (built_io w); [done|]. by repeat split. }
  pose proof (split_space_no_space _ Hsp) as Hsplit.
  destruct (exit_dispatch trim minimist w0 I C (trim s) Hb0) as
    (l0 & tl & Hv & Hl0 & Hrun).
  - by rewrite Hsplit.
  - rewrite Hsplit. simpl. unfold first_positional. by rewrite Hpos.
  - rewrite Hsplit in Hl0, Hrun. simpl in Hl0, Hrun.
    exists l0. split; [done|].
    assert (iteration trim minimist w
            = Done false
                (emit (Log "  byeee") (emit (Invoke l0 (minimist [])) w0)))
      as Hit.
    { unfold iteration. rewrite bind_unfold. unfold getCommand. simpl.
      rewrite Hin. simpl. apply Hrun. }
    unfold run. by rewrite (run_loop_step trim minimist _ _ _ _ Hit).
Qed.

Lemma run_returns_on_exit_witness :
  ∃ l0,
    heap (Sample.bare_on "ping" [Line " exit "; Line "ping"]) !! l0
    = Some (exit_spec (Sample.trim " exit "))
    ∧ run Sample.trim Sample.positionals
        (Sample.bare_on "ping" [Line " exit "; Line "ping"])
      = Done true
          (emit (Log "  byeee")
             (emit (Invoke l0 (Sample.positionals []))
                (set_stdin [Line "ping"]
                   (emit (Question "> ")
                      (Sample.bare_on "ping" [Line " exit "; Line "ping"]))))).
Proof.
  apply (run_returns_on_exit Sample.trim Sample.positionals
           (Sample.bare_on "ping" [Line " exit "; Line "ping"]) [1] []
           " exit " [Line "ping"]).
  - apply bare_on_built.
  - reflexivity.
  - vm_compute. apply list_elem_of_here.
  - reflexivity.
  - reflexivity.
Defined.

(** ** What makes the loop return *)

Lemma runCommand_false (trim : string → string)
    (minimist : list string → IArguments) (line : string)
    (w w' : Slimshell) :
  runCommand trim minimist line w = Done false w' →
  ∃ w1 l args d,
    heap w !! l = Some d
    ∧ success (command d args) = false
    ∧ trace w'
      = trace w1 ++ Invoke l args
          :: ((λ msg, Log ("  " +:+ msg))
                <$> default [] (messages (command d args))).
Proof.
  unfold runCommand.
  intros (n & w0 & Hn & Hrest)%bind_done.
  apply first_positional_pure in Hn as ->.
  apply bind_done in Hrest as (cd & w0 & Hcd & Hrest).
  rewrite find_cd_unfold in Hcd.
  destruct (cds_find w _ n) as [l| |] eqn:Hl; [| |done];
    injection Hcd as <- <-.
  - apply cds_find_found in Hl.
    apply bind_done in Hrest as (r & w1 & Hres & Hinv).
    destruct r as [args'|]; [|done].
    destruct (resolve_prompted _ _ _ _ _ _ Hres)
      as (qs & answers & (_ & Hheap & _) & _).
    destruct (lookup_cd_live _ _ _ _ Hl) as (d & Hd & _).
    rewrite (invoke_spec l args' w1 d) in Hinv by by rewrite Hheap.
    injection Hinv as Hs <-.
    exists w1, l, args', d. split; [done|]. split; [done|].
    rewrite log_messages_trace. simpl. by rewrite <- app_assoc.
  - apply bind_done in Hrest as (? & ? & _ & [=]).
Qed.

Lemma run_loop_returns (trim : string → string)
    (minimist : list string → IArguments) (fuel : nat)
    (w : Slimshell) (b : bool) (w' : Slimshell) :
  run_loop trim minimist fuel w = Done b w' →
  b = true
  ∧ ∃ w1 l args d,
      heap w !! l = Some d
      ∧ success (command d args) = false
      ∧ trace w'
        = trace w1 ++ Invoke l args
            :: ((λ msg, Log ("  " +:+ msg))
                  <$> default [] (messages (command d args))).
Proof.
  revert w. induction fuel as [|fuel IH]; intros w; simpl; [done|].
  intros (running & w1 & Hit & Hrest)%bind_done.
  pose proof (keeps_iteration trim minimist w) as (_ & Hheap & _).
  rewrite Hit in Hheap. simpl in Hheap.
  destruct running.
  - destruct (IH _ Hrest) as (-> & w2 & l & args & d & Hd & Hs & Ht).
    split; [done|]. exists w2, l, args, d. by rewrite <- Hheap.
  - injection Hrest as <- <-. split; [done|].
    unfold iteration in Hit. apply bind_done in Hit as (s & w0 & Hget & Hrun).
    pose proof (keeps_getCommand w) as (_ & Hheap0 & _).
    rewrite Hget in Hheap0. simpl in Hheap0.
    destruct (runCommand_false _ _ _ _ _ Hrun)
      as (w2 & l & args & d & Hd & Hs & Ht).
    exists w2, l, args, d. by rewrite <- Hheap0.
Qed.

(** X3. [run] hands back nothing but true, and it returns only when a
    handler has answered with success false: the last effects before it
    returns are the call of such a handler, a definition of the registry,
    and the printing of its messages; after a "wut?" or a cancelled prompt
    the loop goes on.  [run] can also end by throwing: a first line whose
    verb is a property that the registry inherits without owning makes it
    throw a TypeError, that line consumed and nothing printed. *)
Theorem run_returns_after_failed_handler (trim : string → string)
    (minimist : list string → IArguments) (w : Slimshell) :
  (∀ b w',
     run trim minimist w = Done b w' →
     b = true
     ∧ ∃ w1 l args d,
         heap w !! l = Some d
         ∧ success (command d args) = false
         ∧ trace w'
           = trace w1 ++ Invoke l args
               :: ((λ msg, Log ("  " +:+ msg))
                     <$> default [] (messages (command d args))))
  ∧ (∀ s rest xs,
       stdin w = Line s :: rest →
       get (minimist (tail (split_space (trim s)))) "_" = VArray xs →
       cds_blocked w (hd "" (split_space (trim s))) = true →
       run trim minimist w
       = Throw TypeError (set_stdin rest (emit (Question "> ") w))).
Proof.
  split; [intros b w'; apply run_loop_returns|].
  intros s rest xs Hin Hpos Hb. unfold run.
  rewrite (run_loop_line trim minimist _ w s rest Hin).
  unfold normaliseCommand.
  rewrite (runCommand_not_array trim minimist (trim s) _ (head xs)); [done|..].
  - unfold first_positional. rewrite Hpos. by destruct xs.
  - apply cds_find_not_array. unfold cds_blocked, cds_inherits in *. simpl.
    by destruct (cds w !! hd "" (split_space (trim s))).
Qed.

Lemma run_returns_after_failed_handler_witness :
  true = true
  ∧ ∃ w1 l args d,
      heap (Sample.bare_on "ping" [Line "ping"; Line "nope"; Line "exit"]) !! l
      = Some d
      ∧ success (command d args) = false
      ∧ trace
          (final (run Sample.trim Sample.positionals
                    (Sample.bare_on "ping"
                       [Line "ping"; Line "nope"; Line "exit"])))
        = trace w1 ++ Invoke l args
            :: ((λ msg, Log ("  " +:+ msg))
                  <$> default [] (messages (command d args))).
Proof.
  apply (proj1 (run_returns_after_failed_handler Sample.trim
                  Sample.positionals
                  (Sample.bare_on "ping"
                     [Line "ping"; Line "nope"; Line "exit"])) true).
  vm_compute; reflexivity.
Defined.

(** A line "toString" ends the loop with a TypeError. *)
Example toString_line_throws :
  run Sample.trim Sample.positionals
    (Sample.bare_on "ping" [Line "toString"; Line "exit"])
  = Throw TypeError
      (set_stdin [Line "exit"]
         (emit (Question "> ")
            (Sample.bare_on "ping" [Line "toString"; Line "exit"]))).
Proof. vm_compute. reflexivity. Qed.

(** ** What the loop can do to the state *)

Lemma preserves_ret {A} (P : Slimshell → Prop) (a : A) :
  preserves P (mret a : M A).
Proof. by intros w. Qed.

Lemma preserves_throw {A} (P : Slimshell → Prop) (e : js_error) :
  preserves P (throw e : M A).
Proof. by intros w. Qed.

Lemma preserves_bind {A B} (P : Slimshell → Prop) (m : M A) (k : A → M B) :
  preserves P m → (∀ a, preserves P (k a)) → preserves P (m ≫= k).
Proof.
  intros Hm Hk w Hw. rewrite bind_unfold. specialize (Hm w Hw).
  destruct (m w) as [a w'| | |]; simpl in *; [|done..]. by apply Hk.
Qed.

Lemma preserves_try_catch {A} (P : Slimshell → Prop) (m h : M A) :
  preserves P m → preserves P h → preserves P (try_catch m h).
Proof.
  intros Hm Hh w Hw. unfold try_catch. specialize (Hm w Hw).
  destruct (m w) as [| e w' | |]; simpl in *; [done| |done..]. by apply Hh.
Qed.

Lemma preserves_modify (P : Slimshell → Prop) (f : Slimshell → Slimshell) :
  (∀ w, P w → P (f w)) → preserves P (modify f).
Proof. intros Hf w Hw. by apply Hf. Qed.

Section Preservation.
Variable trim : string → string.
Variable minimist : list string → IArguments.
Variable P : Slimshell → Prop.
Hypothesis HP : closed_under_io P.

Lemma preserves_log_messages (msgs : list string) (w : Slimshell) :
  P w → P (log_messages msgs w).
Proof.
  unfold log_messages. revert w.
  induction msgs as [|m msgs IH]; intros w Hw; simpl; [done|].
  apply IH. by apply (io_emit P HP).
Qed.

Lemma preserves_getCommand : preserves P getCommand.
Proof.
  intros w Hw. unfold getCommand. simpl.
  destruct (next_line (stdin w)) as [[??]|]; simpl;
    by apply (io_stdin P HP), (io_emit P HP).
Qed.

Lemma preserves_getArgument (req : IArgumentDefinition) :
  preserves P (getArgument trim req).
Proof.
  intros w Hw. unfold getArgument. simpl.
  assert (P (emit (Question ("  $" +:+ description req +:+ ": "))
               (set_keypress (S (keypress w)) w))) as Hw2
    by by apply (io_emit P HP), (io_keypress P HP).
  destruct (stdin w) as [|[?|] ?]; simpl; [done|..];
    by apply (io_stdin P HP).
Qed.

Lemma preserves_ask (fuel : nat) (req : IArgumentDefinition)
    (args : IArguments) :
  preserves P (ask trim fuel req args).
Proof.
  revert args. induction fuel as [|fuel IH]; intros args; simpl;
    destruct (truthy (get args (name req))); try apply preserves_ret.
  - by intros w.
  - apply preserves_bind.
    + apply preserves_try_catch.
      * apply preserves_bind; [apply preserves_getArgument|].
        intros. apply preserves_ret.
      * apply preserves_bind;
          [apply preserves_modify, (io_initInput P HP)|].
        intros _. apply preserves_bind.
        -- apply preserves_modify. intros w. by apply (io_emit P HP).
        -- intros _. apply preserves_ret.
    + intros [v|]; [apply IH|apply preserves_ret].
Qed.

Lemma preserves_resolve (cd : loc) (args : IArguments) :
  preserves P (resolve trim cd args).
Proof.
  apply preserves_bind.
  { intros w Hw. unfold deref. by destruct (heap w !! cd). }
  intros d. destruct (requiredArguments d) as [reqs|];
    [|apply preserves_ret].
  revert args. induction reqs as [|req reqs IH]; intros args; simpl.
  - apply preserves_ret.
  - apply preserves_bind.
    + unfold resolveArgument.
      destruct (truthy (get args (name req))); [apply preserves_ret|].
      destruct (alternatives req); [|apply preserves_throw].
      intros w. apply preserves_ask.
    + intros [args'|]; [apply IH|apply preserves_ret].
Qed.

Lemma preserves_runCommand (command : string) :
  preserves P (runCommand trim minimist command).
Proof.
  apply preserves_bind.
  { unfold first_positional.
    destruct (get _ "_") as [|[[|??]| |]|[|??]|];
      first [apply preserves_ret | apply preserves_throw]. }
  intros noun. apply preserves_bind.
  { intros w Hw. unfold find_cd. by destruct (cds_find w _ noun). }
  intros [cd|].
  - apply preserves_bind; [apply preserves_resolve|].
    intros [args'|]; [|apply preserves_ret].
    apply preserves_bind.
    { intros w Hw. unfold deref. by destruct (heap w !! cd). }
    intros d. apply preserves_bind.
    { apply preserves_modify. intros w. by apply (io_emit P HP). }
    intros _. apply preserves_bind; [|intros; apply preserves_ret].
    destruct (messages _);
      [apply preserves_modify, preserves_log_messages|apply preserves_ret].
  - apply preserves_bind; [|intros; apply preserves_ret].
    apply preserves_modify. intros w. by apply (io_emit P HP).
Qed.

Lemma preserves_run_loop (fuel : nat) :
  preserves P (run_loop trim minimist fuel).
Proof.
  induction fuel as [|fuel IH]; simpl; [by intros w|].
  apply preserves_bind.
  - apply preserves_bind; [apply preserves_getCommand|].
    intros. apply preserves_runCommand.
  - intros [|]; [apply IH|apply preserves_ret].
Qed.

Lemma preserves_run : preserves P (run trim minimist).
Proof. intros w. apply preserves_run_loop. Qed.

End Preservation.

Lemma construction_installs_exit_verbs_aux (t v : option string)
    (ecs : list string) (ins : list key_event) :
  ∃ w,
    constructor {| title := t; version := v; exitCommands := Some ecs |} ins
    = Done tt w
    ∧ input w = Some 0 ∧ trace w = [OpenInput 0].
Proof.
  unfold constructor. simpl. eexists. split; [done|].
  set (w0 := mkShell _ _ _ _ _ _ _ _ _).
  destruct (install_exits_rest (ecs ++ DEFAULT_exitCommands) w0)
    as (Hi & Ht & _).
  by rewrite initInput_input, initInput_trace, Hi, Ht.
Qed.

Lemma open_interfaces_snoc (tr : list effect) (e : effect) :
  open_interfaces (tr ++ [e]) = interface_step (open_interfaces tr) e.
Proof. unfold open_interfaces. by rewrite foldl_snoc. Qed.

Lemma one_interface_io : closed_under_io one_interface.
Proof.
  split; unfold one_interface.
  - intros w e He Hw. simpl. rewrite open_interfaces_snoc, Hw.
    by destruct e.
  - done.
  - done.
  - intros w Hw. rewrite initInput_trace, initInput_input.
    destruct (input w) as [h|]; simpl in *.
    + replace (trace w ++ [CloseInput h; OpenInput (S h)])
        with ((trace w ++ [CloseInput h]) ++ [OpenInput (S h)])
        by by rewrite <- app_assoc.
      rewrite !open_interfaces_snoc, Hw. simpl.
      by rewrite Nat.eqb_refl.
    + by rewrite open_interfaces_snoc, Hw.
Qed.

(** X5. The shell never has more than one readline interface open: after
    construction the interfaces open are exactly the one [this.input]
    refers to; the builder stages leave it alone; and however a run of the
    loop ends, with whatever prompts cancelled on the way, that is still
    so, every reset having closed the old interface before it opened the
    new one. *)
Theorem one_interface_at_a_time (trim : string → string)
    (minimist : list string → IArguments) :
  (∀ config ins w, constructor config ins = Done tt w → one_interface w)
  ∧ (∀ w v n c rs,
       one_interface w →
       one_interface (snd (on v w))
       ∧ one_interface (snd (chain_full v n c rs w))
       ∧ one_interface (snd (chain_short v c w)))
  ∧ (∀ w, one_interface w → one_interface (final (run trim minimist w)))
  ∧ (∀ w, one_interface w → ∃ h, open_interfaces (trace (initInput w)) = [h]).
Proof.
  split; [|split; [|split]].
  - intros [t v [ecs|]] ins w; [|done].
    destruct (construction_installs_exit_verbs_aux t v ecs ins)
      as (w' & -> & Hi & Ht). intros [= <-].
    unfold one_interface. by rewrite Hi, Ht.
  - intros w v n c rs Hw. unfold one_interface, chain_full, chain_short.
    assert (trace (snd (on v w)) = trace w ∧ input (snd (on v w)) = input w)
      as [Ht Hi] by (unfold on; by destruct (cds w !! v)).
    destruct (on v w) as [[l] w1]. simpl in *. by rewrite Ht, Hi.
  - intros w. apply preserves_run, one_interface_io.
  - intros w Hw. apply (io_initInput _ one_interface_io) in Hw.
    unfold one_interface in Hw. rewrite initInput_input in Hw. eauto.
Qed.

Lemma one_interface_at_a_time_witness :
  one_interface
    (final (run Sample.trim Sample.positionals
              (Sample.login_shell Sample.token_alone
                 [Line "login"; Escape; Line "login"; Escape; Line "exit"]))).
Proof.
  apply (proj1 (proj2 (proj2
           (one_interface_at_a_time Sample.trim Sample.positionals)))).
  vm_compute; reflexivity.
Defined.

(** ** The bag a resolution hands to the handler *)

Section ResolvedBag.
Variable trim : string → string.

Lemma ask_blanks (req : IArgumentDefinition) (v : string)
    (rest : list key_event) (blanks : list string) :
  ∀ (fuel : nat) (args : IArguments) (w : Slimshell),
    truthy (get args (name req)) = false →
    stdin w = (Line <$> blanks) ++ Line v :: rest →
    Forall (λ b, trim b = "") blanks →
    trim v ≠ "" →
    length blanks < fuel →
    ∃ w',
      ask trim fuel req args w
      = Done (Resolved (<[name req := VStr (trim v)]> args)) w'
      ∧ stdin w' = rest
      ∧ trace w'
        = trace w ++ replicate (S (length blanks)) (Question (prompt_text req))
      ∧ keypress w' = keypress w + S (length blanks)
      ∧ input w' = input w.
Proof.
  induction blanks as [|b blanks IH]; intros fuel args w Hf Hin Hbl Hv Hlt;
    (destruct fuel as [|fuel]; [simpl in Hlt; lia|]); simpl; rewrite Hf;
    rewrite bind_unfold; unfold try_catch; rewrite bind_unfold;
    unfold getArgument; simpl; rewrite Hin; simpl.
  - destruct fuel; simpl; rewrite truthy_get_insert by done;
      (eexists; split; [done|]); simpl; repeat split; lia.
  - apply Forall_cons in Hbl as [Hb Hbl]. rewrite Hb.
    edestruct (IH fuel (<[name req := VStr ""]> args)
                 (set_stdin ((Line <$> blanks) ++ Line v :: rest)
                    (emit (Question ("  $" +:+ description req +:+ ": "))
                       (set_keypress (S (keypress w)) w))))
      as (w' & Hask & Hs & Ht & Hk & Hi); try done.
    + unfold get. by rewrite lookup_insert_eq.
    + simpl in Hlt. lia.
    + exists w'. rewrite insert_insert_eq in Hask. split; [exact Hask|].
      split; [done|]. simpl in *. rewrite Ht, Hk, Hi, <- app_assoc.
      repeat split. lia.
Qed.

(** X6. A required argument whose primary name reads as falsy in the bag,
    with alternatives none of which reads as defined there (names that the
    bag inherits from [Object.prototype] read as truthy and as defined, so
    they are not among these): the prompt is repeated for as long as the
    line typed is blank after trimming, and the first line that is not is
    stored, trimmed, under the argument's primary name; nothing else in the
    bag changes, one question is asked per line consumed, each labelled with
    the argument's description, and what was typed after is left for later. *)
Theorem blank_answers_are_asked_again (req : IArgumentDefinition)
    (alts : list string) (args : IArguments) (w : Slimshell)
    (blanks : list string) (v : string) (rest : list key_event) :
  truthy (get args (name req)) = false →
  alternatives req = Some alts →
  Forall (λ alt, get args alt = VUndefined) alts →
  stdin w = (Line <$> blanks) ++ Line v :: rest →
  Forall (λ b, trim b = "") blanks →
  trim v ≠ "" →
  ∃ w',
    resolveArgument trim req args w
    = Done (Resolved (<[name req := VStr (trim v)]> args)) w'
    ∧ stdin w' = rest
    ∧ trace w'
      = trace w
          ++ replicate (S (length blanks))
               (Question ("  $" +:+ description req +:+ ": "))
    ∧ keypress w' = keypress w + S (length blanks)
    ∧ input w' = input w.
Proof.
  intros Hf Ha Hnone Hin Hbl Hv. unfold resolveArgument. rewrite Hf, Ha.
  assert (found_alternative alts args = VUndefined) as ->.
  { unfold found_alternative.
    replace (List.find _ alts) with (@None string); [done|].
    symmetry. apply find_none. eapply Forall_impl; [done|].
    intros alt ->. done. }
  edestruct (ask_blanks req v rest blanks (S (length (stdin w)))
               (<[name req := VUndefined]> args) w)
    as (w' & Hask & Hrest); try done.
  - unfold get. by rewrite lookup_insert_eq.
  - rewrite Hin, length_app, length_fmap. lia.
  - exists w'. by rewrite Hask, insert_insert_eq.
Qed.

Lemma ask_result_truthy (fuel : nat) (req : IArgumentDefinition)
    (args args' : IArguments) (w w' : Slimshell) :
  ask trim fuel req args w = Done (Resolved args') w' →
  truthy (get args' (name req)) = true.
Proof.
  revert args w. induction fuel as [|fuel IH]; intros args w; simpl;
    destruct (truthy (get args (name req))) eqn:Ht;
    try (by intros [= <- <-]).
  intros (r & w1 & _ & Hk)%bind_done.
  destruct r as [v|]; [|done]. by eapply IH.
Qed.

Lemma ask_other_keys (fuel : nat) (req : IArgumentDefinition)
    (args args' : IArguments) (w w' : Slimshell) (k : string) :
  ask trim fuel req args w = Done (Resolved args') w' →
  k ≠ name req → args' !! k = args !! k.
Proof.
  revert args w. induction fuel as [|fuel IH]; intros args w; simpl;
    destruct (truthy (get args (name req))) eqn:Ht;
    try (by intros [= <- <-]).
  intros (r & w1 & _ & Hk)%bind_done Hne.
  destruct r as [v|]; [|done].
  rewrite (IH _ _ Hk Hne). by rewrite lookup_insert_ne.
Qed.

Lemma resolveArgument_result_truthy (req : IArgumentDefinition)
    (args args' : IArguments) (w w' : Slimshell) :
  resolveArgument trim req args w = Done (Resolved args') w' →
  truthy (get args' (name req)) = true.
Proof.
  unfold resolveArgument.
  destruct (truthy (get args (name req))) eqn:Ht; [by intros [= <- <-]|].
  destruct (alternatives req); [|done]. apply ask_result_truthy.
Qed.

Lemma resolveArgument_other_keys (req : IArgumentDefinition)
    (args args' : IArguments) (w w' : Slimshell) (k : string) :
  resolveArgument trim req args w = Done (Resolved args') w' →
  k ≠ name req → args' !! k = args !! k.
Proof.
  unfold resolveArgument.
  destruct (truthy (get args (name req))) eqn:Ht; [by intros [= <- <-]|].
  destruct (alternatives req); [|done]. intros Hask Hne.
  rewrite (ask_other_keys _ _ _ _ _ _ _ Hask Hne).
  by rewrite lookup_insert_ne.
Qed.

Lemma resolveArguments_result_truthy (reqs : list IArgumentDefinition)
    (args args' : IArguments) (w w' : Slimshell) :
  resolveArguments trim reqs args w = Done (Resolved args') w' →
  Forall (λ req, truthy (get args' (name req)) = true) reqs.
Proof.
  revert args w. induction reqs as [|req reqs IH]; intros args w; simpl.
  - constructor.
  - intros (r & w1 & H1 & H2)%bind_done.
    destruct r as [args1|]; [|done]. constructor; [|by eapply IH].
    pose proof (resolveArgument_result_truthy _ _ _ _ _ H1) as Ht.
    by rewrite (resolveArguments_keeps_truthy trim _ _ _ _ _ _ H2 Ht).
Qed.

Lemma resolveArguments_other_keys (reqs : list IArgumentDefinition)
    (args args' : IArguments) (w w' : Slimshell) (k : string) :
  resolveArguments trim reqs args w = Done (Resolved args') w' →
  k ∉ names reqs → args' !! k = args !! k.
Proof.
  revert args w. induction reqs as [|req reqs IH]; intros args w; simpl.
  - by intros [= <- <-].
  - intros (r & w1 & H1 & H2)%bind_done Hk.
    destruct r as [args1|]; [|done].
    apply not_elem_of_cons in Hk as [Hne Hk].
    rewrite (IH _ _ H2 Hk). by eapply resolveArgument_other_keys.
Qed.

(** X7. Whenever the resolution for a matched definition completes, every
    one of its required arguments reads as truthy in the bag that goes to
    the handler.  For a name that is no property of [Object.prototype] this
    means the bag owns a truthy value under it: the handler is not called
    with such an argument missing, empty, zero or false.  (For a name such
    as "constructor" it is the inherited property that reads as truthy.) *)
Theorem handler_gets_every_required_argument (l : loc) (args args' : IArguments)
    (w w' : Slimshell) (d : ICommandDefinition)
    (reqs : list IArgumentDefinition) :
  resolve trim l args w = Done (Resolved args') w' →
  heap w !! l = Some d →
  requiredArguments d = Some reqs →
  Forall (λ req,
            truthy (get args' (name req)) = true
            ∧ (inherited (name req) = false →
               ∃ v, args' !! name req = Some v ∧ truthy v = true))
         reqs.
Proof.
  intros (d' & w1 & Hd & Hres)%bind_done Hl Hr. unfold deref in Hd.
  rewrite Hl in Hd. injection Hd as <- <-. rewrite Hr in Hres.
  eapply Forall_impl; [by eapply resolveArguments_result_truthy|].
  intros req Ht. split; [done|]. intros Hi. unfold get in Ht.
  rewrite Hi in Ht. destruct (args' !! name req) as [v|]; [eauto|done].
Qed.

(** X8. A completed resolution writes under the primary names of the
    required arguments and nowhere else: every other key of the bag,
    present or absent, alternatives included, is as the tokenizer left it. *)
Theorem resolution_writes_required_names_only (l : loc)
    (args args' : IArguments) (w w' : Slimshell) (d : ICommandDefinition)
    (k : string) :
  resolve trim l args w = Done (Resolved args') w' →
  heap w !! l = Some d →
  k ∉ names (default [] (requiredArguments d)) →
  args' !! k = args !! k.
Proof.
  intros (d' & w1 & Hd & Hres)%bind_done Hl Hk. unfold deref in Hd.
  rewrite Hl in Hd. injection Hd as <- <-.
  destruct (requiredArguments d) as [reqs|]; simpl in Hk.
  - by eapply resolveArguments_other_keys.
  - by injection Hres as <- _.
Qed.

End ResolvedBag.

Lemma blank_answers_are_asked_again_witness :
  ∃ w',
    resolveArgument Sample.trim Demo.ask_token (Sample.positionals [])
      (Sample.idle [Line "  "; Line ""; Line " xyz "; Line "more"])
    = Done (Resolved (<["token" := VStr (Sample.trim " xyz ")]>
                        (Sample.positionals []))) w'
    ∧ stdin w' = [Line "more"]
    ∧ trace w'
      = trace (Sample.idle [Line "  "; Line ""; Line " xyz "; Line "more"])
          ++ replicate (S (length ["  "; ""]))
               (Question ("  $" +:+ description Demo.ask_token +:+ ": "))
    ∧ keypress w'
      = keypress (Sample.idle [Line "  "; Line ""; Line " xyz "; Line "more"])
        + S (length ["  "; ""])
    ∧ input w'
      = input (Sample.idle [Line "  "; Line ""; Line " xyz "; Line "more"]).
Proof.
  apply (blank_answers_are_asked_again Sample.trim Demo.ask_token
           ["t"; "tok"] (Sample.positionals [])
           (Sample.idle [Line "  "; Line ""; Line " xyz "; Line "more"])
           ["  "; ""] " xyz " [Line "more"]).
  - vm_compute; reflexivity.
  - reflexivity.
  - repeat constructor.
  - reflexivity.
  - repeat constructor.
  - vm_compute. discriminate.
Defined.

Lemma handler_gets_every_required_argument_witness :
  Forall (λ req,
            truthy (get (Sample.resolved_bag
                           (resolve Sample.trim 1 (Sample.positionals [])
                              (Sample.login_shell Sample.token_alone
                                 [Line ""; Line "abc"])))
                        (name req)) = true
            ∧ (inherited (name req) = false →
               ∃ v, Sample.resolved_bag
                      (resolve Sample.trim 1 (Sample.positionals [])
                         (Sample.login_shell Sample.token_alone
                            [Line ""; Line "abc"])) !! name req = Some v
                    ∧ truthy v = true))
         [Sample.token_alone].
Proof.
  apply (handler_gets_every_required_argument Sample.trim 1
           (Sample.positionals []) _
           (Sample.login_shell Sample.token_alone [Line ""; Line "abc"])
           (final (resolve Sample.trim 1 (Sample.positionals [])
                     (Sample.login_shell Sample.token_alone
                        [Line ""; Line "abc"])))
           {| verb := "login"; noun := None; command := Sample.echo_token;
              requiredArguments := Some [Sample.token_alone] |}).
  - vm_compute; reflexivity.
  - vm_compute; reflexivity.
  - reflexivity.
Defined.

Lemma resolution_writes_required_names_only_witness :
  Sample.resolved_bag
    (resolve Sample.trim 1 {["t" := VStr ""; "_" := VArray []]}
       (Sample.login_shell Sample.token [Line "abc"])) !! "t"
  = ({["t" := VStr ""; "_" := VArray []]} : IArguments) !! "t".
Proof.
  apply (resolution_writes_required_names_only Sample.trim 1
           {["t" := VStr ""; "_" := VArray []]} _
           (Sample.login_shell Sample.token [Line "abc"])
           (final (resolve Sample.trim 1 {["t" := VStr ""; "_" := VArray []]}
                     (Sample.login_shell Sample.token [Line "abc"])))
           {| verb := "login"; noun := None; command := Sample.echo_token;
              requiredArguments := Some [Sample.token] |}).
  - vm_compute; reflexivity.
  - vm_compute; reflexivity.
  - vm_compute. intros [H|H]%elem_of_cons; [discriminate|].
    by apply elem_of_nil in H.
Defined.

(** ** Builder stages, composed *)





(** ** Lookups, as the registry grows *)

Lemma find_agree {A} (f g : A → bool) (ls : list A) :
  (∀ x, x ∈ ls → f x = g x) → List.find f ls = List.find g ls.
Proof.
  induction ls as [|x ls IH]; intros H; simpl; [done|].
  rewrite <- (H x) by apply list_elem_of_here.
  destruct (f x); [done|]. apply IH. intros y Hy. apply H.
  by apply list_elem_of_further.
Qed.

Lemma find_app_found {A} (f : A → bool) (ls k : list A) (x : A) :
  List.find f ls = Some x → List.find f (ls ++ k) = Some x.
Proof.
  induction ls as [|y ls IH]; simpl; [done|]. by destruct (f y).
Qed.

Lemma noun_at_keeps (w : Slimshell) (l : loc)
    (f : ICommandDefinition → ICommandDefinition) (n : option scalar)
    (l' : loc) :
  (∀ d, noun (f d) = noun d) →
  noun_at (set_heap (alter f l) w) n l' = noun_at w n l'.
Proof.
  intros Hf. unfold noun_at. simpl.
  destruct (decide (l = l')) as [<-|Hne].
  - rewrite list_lookup_alter_eq. destruct (heap w !! l); simpl; [|done].
    by rewrite Hf.
  - by rewrite list_lookup_alter_ne.
Qed.

Lemma lookup_cd_keeps (w : Slimshell) (l : loc)
    (f : ICommandDefinition → ICommandDefinition) (v : string)
    (n : option scalar) :
  (∀ d, noun (f d) = noun d) →
  lookup_cd (set_heap (alter f l) w) v n = lookup_cd w v n.
Proof.
  intros Hf. unfold lookup_cd. simpl.
  destruct (cds w !! v) as [ls|]; [|done].
  apply find_agree. intros l' _. by apply noun_at_keeps.
Qed.

Lemma lookup_cd_on (w : Slimshell) (I C : list loc) (v v' : string)
    (n : option scalar) (l : loc) :
  built w I C → lookup_cd w v n = Some l →
  lookup_cd (snd (on v' w)) v n = Some l.
Proof.
  intros Hb. pose proof (built_inv _ _ _ Hb) as Hinv.
  unfold lookup_cd. rewrite on_cds.
  destruct (cds w !! v) as [ls|] eqn:Hv; [|done]. intros Hfind.
  assert (∀ l', l' ∈ ls →
            noun_at (snd (on v' w)) n l' = noun_at w n l') as Hagree.
  { intros l' Hl'. destruct (inv_filed _ _ _ Hinv _ _ _ Hv Hl')
      as (d & Hd & _).
    unfold noun_at. rewrite on_heap.
    by rewrite (lookup_app_l_Some _ _ _ _ Hd), Hd. }
  destruct (decide (v' = v)) as [->|Hne].
  - rewrite lookup_insert_eq. unfold specs_of. rewrite Hv. simpl.
    apply find_app_found. by rewrite (find_agree _ (noun_at w n)).
  - rewrite lookup_insert_ne, Hv by done.
    by rewrite (find_agree _ (noun_at w n)).
Qed.

(** X10. First registered wins, for good: in a state a program can build,
    a (verb, noun) pair that selects a definition still selects the same
    one after any further [on], whatever its verb; and attaching a handler
    or required arguments to any definition changes the result of no
    lookup at all. *)
Theorem later_registrations_never_shadow (w : Slimshell) (I C : list loc) :
  built w I C →
  (∀ v n l v', lookup_cd w v n = Some l →
     lookup_cd (snd (on v' w)) v n = Some l)
  ∧ (∀ v n l' c,
       lookup_cd (snd (call (SsCall l') c w)) v n = lookup_cd w v n)
  ∧ (∀ v n l' rs,
       lookup_cd (snd (requiring (SsRequiring l') rs w)) v n
       = lookup_cd w v n).
Proof.
  intros Hb. split; [|split].
  - intros v n l v' Hl. by eapply lookup_cd_on.
  - intros. simpl. by apply lookup_cd_keeps.
  - intros. simpl. by apply lookup_cd_keeps.
Qed.

Lemma later_registrations_never_shadow_witness :
  lookup_cd (snd (on "login" (Sample.login_shell Sample.token []))) "login"
    None
  = Some 1.
Proof.
  apply (proj1 (later_registrations_never_shadow
                  (Sample.login_shell Sample.token []) [1] [1]
                  (login_shell_built Sample.token []))
           "login" None 1 "login").
  vm_compute; reflexivity.
Defined.

(** ** Lines that can select nothing *)

Lemma split_space_atoms (s : string) :
  Forall (λ a, has_space a = false) (split_space s).
Proof.
  induction s as [|a s IH]; simpl.
  - by repeat constructor.
  - destruct (Ascii.eqb a " ") eqn:Ha.
    + by constructor.
    + destruct (split_space s) as [|x xs]; simpl.
      * repeat constructor. simpl. by rewrite Ha.
      * apply Forall_cons in IH as [Hx Hxs]. constructor; [|done].
        simpl. by rewrite Ha.
Qed.

Lemma first_atom_no_space (s : string) :
  has_space (hd "" (split_space s)) = false.
Proof.
  pose proof (split_space_atoms s) as H.
  destruct (split_space s) as [|x xs]; simpl; [done|].
  by apply Forall_cons in H as [? _].
Qed.

(** X11. A definition registered under a verb that holds a space is in
    the registry but out of reach: the verb of a line is its text up to the
    first space, so no line, with whatever noun, ever selects it. *)
Theorem verb_with_space_is_unreachable (w : Slimshell) (I C : list loc)
    (l : loc) (d : ICommandDefinition) (line : string) (n : option scalar) :
  built w I C →
  heap w !! l = Some d →
  has_space (verb d) = true →
  lookup_cd w (hd "" (split_space line)) n ≠ Some l.
Proof.
  intros Hb Hd Hsp (pre & post & Hv & _ & _)%lookup_cd_first.
  pose proof (built_inv _ _ _ Hb) as Hinv.
  destruct (inv_filed _ _ _ Hinv _ _ l Hv) as (d' & Hd' & Hverb).
  { apply elem_of_app. right. apply list_elem_of_here. }
  assert (d' = d) as -> by congruence.
  pose proof (first_atom_no_space line) as Hno.
  rewrite <- Hverb in Hno. congruence.
Qed.

Lemma chain_short_built (w : Slimshell) (I C : list loc) (v : string)
    (c : Command) :
  built w I C →
  built (snd (chain_short v c w)) (length (heap w) :: I)
        (length (heap w) :: C).
Proof.
  intros Hb. unfold chain_short.
  pose proof (on_ref v w) as Hr.
  destruct (on v w) as [s1 w1] eqn:Hon. simpl in Hr. subst s1. simpl.
  eapply built_call; [| |reflexivity].
  - eapply built_on; [exact Hb|exact Hon].
  - apply list_elem_of_here.
Qed.

Lemma chain_full_built (w : Slimshell) (I C : list loc) (v n : string)
    (c : Command) (rs : list IArgumentDefinition) :
  built w I C →
  built (snd (chain_full v n c rs w)) (length (heap w) :: I)
        (length (heap w) :: C).
Proof.
  intros Hb. unfold chain_full.
  pose proof (on_ref v w) as Hr.
  destruct (on v w) as [s1 w1] eqn:Hon. simpl in Hr. subst s1. simpl.
  eapply built_requiring; [| |reflexivity].
  - eapply built_call; [| |reflexivity].
    + eapply built_with; [| |reflexivity].
      * eapply built_on; [exact Hb|exact Hon].
      * apply list_elem_of_here.
    + apply list_elem_of_here.
  - apply list_elem_of_here.
Qed.

Lemma fresh_built (ins : list key_event) : built (Sample.fresh ins) [] [].
Proof. apply (built_new Sample.default_config ins). reflexivity. Qed.

Lemma verb_with_space_is_unreachable_witness :
  lookup_cd (Demo.say_hi_shell []) (hd "" (split_space "say hi"))
    (Some (SStr "hi"))
  ≠ Some 1.
Proof.
  apply (verb_with_space_is_unreachable (Demo.say_hi_shell []) [1] [1] 1
           {| verb := "say hi"; noun := None; command := Sample.echo_token;
              requiredArguments := None |}).
  - apply (chain_short_built (Sample.fresh []) [] [] "say hi"
             Sample.echo_token (fresh_built [])).
  - vm_compute; reflexivity.
  - reflexivity.
Defined.

Lemma cds_find_unselected (w : Slimshell) (v : string) (n : option scalar) :
  (∀ l, cds_find w v n ≠ Found l) →
  cds_find w v n = if cds_blocked w v then NotAnArray else NotFound.
Proof.
  intros Hno. specialize (Hno) as Hno'. unfold cds_find, cds_blocked in *.
  destruct (cds w !! v) as [ls|]; [|done].
  destruct (List.find _ ls) as [l|]; [|done]. by destruct (Hno l).
Qed.

(** X12. A line whose first positional token the tokenizer hands over as
    a number or a boolean selects no definition, in any state: nouns are
    strings and are compared with [===], even when a definition was
    registered with the same digits as its noun.  So the line gets the
    "wut?" notice and the loop goes on; or, when the registry inherits a
    property under the verb without owning the verb, the lookup throws as
    it does for any line with that verb. *)
Theorem non_string_noun_matches_nothing (trim : string → string)
    (minimist : list string → IArguments) (line : string) (w : Slimshell)
    (x : scalar) (xs : list scalar) :
  get (minimist (tail (split_space line))) "_" = VArray (x :: xs) →
  (∀ s, x ≠ SStr s) →
  (∀ l, cds_find w (hd "" (split_space line)) (Some x) ≠ Found l)
  ∧ (cds_blocked w (hd "" (split_space line)) = false →
     runCommand trim minimist line w = Done true (emit (Log "  wut?") w))
  ∧ (cds_blocked w (hd "" (split_space line)) = true →
     runCommand trim minimist line w = Throw TypeError w)
  ∧ next_state true = Running.
Proof.
  intros Hpos Hx.
  assert (∀ l, cds_find w (hd "" (split_space line)) (Some x) ≠ Found l)
    as Hno.
  { intros l (pre & post & _ & (d & _ & Hn) & _)%cds_find_first.
    destruct Hn as [[_ [=]]|(s & _ & [= ->])]. by apply (Hx s). }
  assert (first_positional (minimist (tail (split_space line))) w
          = Done (Some x) w) as Hn.
  { unfold first_positional. by rewrite Hpos. }
  pose proof (cds_find_unselected _ _ _ Hno) as Hfind.
  split; [done|]. split; [|split; [|done]]; intros Hb; rewrite Hb in Hfind.
  - by apply (runCommand_unmatched trim minimist line w (Some x)).
  - by apply (runCommand_not_array trim minimist line w (Some x)).
Qed.

Lemma non_string_noun_matches_nothing_witness :
  runCommand Sample.trim Demo.numerals "show 404" (Demo.show_shell [])
  = Done true (emit (Log "  wut?") (Demo.show_shell [])).
Proof.
  apply (proj1 (proj2 (non_string_noun_matches_nothing Sample.trim
                         Demo.numerals "show 404" (Demo.show_shell [])
                         (SNum 404) [] ltac:(vm_compute; reflexivity)
                         ltac:(intros s; discriminate)))).
  vm_compute; reflexivity.
Defined.

(** The same line selects the definition when the tokenizer leaves the
    token a string. *)
Example string_noun_is_matched :
  lookup_cd (Demo.show_shell []) "show" (Some (SStr "404")) = Some 1.
Proof. vm_compute. reflexivity. Qed.

(** ** The registry as a whole *)

Lemma built_NoDup (w : Slimshell) (I C : list loc) :
  built w I C → ∀ v ls, cds w !! v = Some ls → NoDup ls.
Proof.
  induction 1 as [config ins w Hnew
                 |w I C v l w' Hb IH Hon
                 |w I C l n s w' _ IH Hl Hw
                 |w I C l c s w' _ IH Hl Hw
                 |w I C l rs s w' _ IH Hl Hw
                 |w I C w' _ IH Hio]; intros k ls.
  - destruct config as [t v [ecs|]]; [|done].
    destruct (constructor_with_exitCommands t v ecs ins)
      as (w' & Hw' & _ & _ & Hx).
    rewrite Hw' in Hnew. injection Hnew as <-.
    intros (l & -> & _)%Hx. apply NoDup_singleton.
  - pose proof (built_inv _ _ _ Hb) as Hinv.
    replace w' with (snd (on v w)) by by rewrite Hon.
    rewrite on_cds. destruct (decide (v = k)) as [<-|Hne].
    + rewrite lookup_insert_eq. intros [= <-]. apply NoDup_app.
      split; [|split; [|apply NoDup_singleton]].
      * unfold specs_of. destruct (cds w !! v) eqn:Hv; simpl;
          [by eapply IH|constructor].
      * intros x Hx ->%list_elem_of_singleton. unfold specs_of in Hx.
        destruct (cds w !! v) as [ls|] eqn:Hv; simpl in Hx;
          [|by apply elem_of_nil in Hx].
        destruct (inv_filed _ _ _ Hinv _ _ _ Hv Hx) as (d & Hd & _).
        apply lookup_lt_Some in Hd. lia.
    + rewrite lookup_insert_ne by done. apply IH.
  - injection Hw as _ <-. apply IH.
  - injection Hw as _ <-. apply IH.
  - injection Hw as _ <-. apply IH.
  - destruct Hio as (-> & _). apply IH.
Qed.

(** X13. In every state a program can build, the registry files each
    definition exactly once: the list of a verb holds no reference twice,
    every reference in it leads to a live definition whose verb is that
    verb, and so no definition is listed under two verbs. *)
Theorem registry_files_each_definition_once (w : Slimshell) (I C : list loc) :
  built w I C →
  (∀ v ls, cds w !! v = Some ls →
     NoDup ls
     ∧ ∀ l, l ∈ ls → ∃ d, heap w !! l = Some d ∧ verb d = v)
  ∧ (∀ v1 v2 ls1 ls2 l,
       cds w !! v1 = Some ls1 → cds w !! v2 = Some ls2 →
       l ∈ ls1 → l ∈ ls2 → v1 = v2).
Proof.
  intros Hb. pose proof (built_inv _ _ _ Hb) as Hinv. split.
  - intros v ls Hv. split; [by eapply built_NoDup|].
    intros l Hl. by eapply (inv_filed _ _ _ Hinv).
  - intros v1 v2 ls1 ls2 l H1 H2 Hl1 Hl2.
    destruct (inv_filed _ _ _ Hinv _ _ _ H1 Hl1) as (d1 & Hd1 & <-).
    destruct (inv_filed _ _ _ Hinv _ _ _ H2 Hl2) as (d2 & Hd2 & <-).
    congruence.
Qed.

Lemma registry_files_each_definition_once_witness :
  NoDup [0; 1]
  ∧ ∀ l, l ∈ [0; 1] →
      ∃ d, heap (Sample.bare_on "exit" []) !! l = Some d ∧ verb d = "exit".
Proof.
  apply (proj1 (registry_files_each_definition_once
                  (Sample.bare_on "exit" []) [1] []
                  (bare_on_built "exit" []))
           "exit" [0; 1]).
  vm_compute; reflexivity.
Defined.

(** X14. Once [with] has given a definition a noun, only lines whose first
    positional token is that very string can select it: the bare verb no
    longer does, and neither does any other noun. *)
Theorem noun_restricts_selection (w : Slimshell) (l : loc) (n : string) :
  (∀ v n', lookup_cd (snd (ss_with (SsWith l) n w)) v n' = Some l →
     n' = Some (SStr n))
  ∧ (∀ v, lookup_cd (snd (ss_with (SsWith l) n w)) v None ≠ Some l).
Proof.
  assert (∀ v n', lookup_cd (snd (ss_with (SsWith l) n w)) v n' = Some l →
            n' = Some (SStr n)) as H.
  { intros v n' (d & Hd & Hn)%lookup_cd_live. simpl in Hd.
    rewrite list_lookup_alter_eq in Hd.
    destruct (heap w !! l) as [d0|]; [|done]. injection Hd as <-.
    simpl in Hn. destruct n' as [[s| |]|]; try done.
    by apply String.eqb_eq in Hn as ->. }
  split; [done|]. intros v Hl. by apply H in Hl.
Qed.

Lemma noun_restricts_selection_witness :
  lookup_cd (snd (ss_with (SsWith 1) "bob" (Sample.bare_on "greet" [])))
    "greet" (Some (SStr "bob")) = Some 1
  ∧ Some (SStr "bob") = Some (SStr "bob")
  ∧ lookup_cd (snd (ss_with (SsWith 1) "bob" (Sample.bare_on "greet" [])))
      "greet" None ≠ Some 1.
Proof.
  assert (lookup_cd (snd (ss_with (SsWith 1) "bob"
                            (Sample.bare_on "greet" [])))
            "greet" (Some (SStr "bob")) = Some 1) as Hl
    by (vm_compute; reflexivity).
  split; [exact Hl|]. split.
  - apply (proj1 (noun_restricts_selection (Sample.bare_on "greet" []) 1
                    "bob") "greet" (Some (SStr "bob")) Hl).
  - apply (proj2 (noun_restricts_selection (Sample.bare_on "greet" []) 1
                    "bob") "greet").
Defined.

Lemma construction_installs_exit_verbs_witness :
  ∃ w,
    constructor {| title := Some ""; version := None;
                   exitCommands := Some ["quit"; "exit"; "quit"] |} []
    = Done tt w
    ∧ config_exitCommands w = ["quit"; "exit"; "quit"] ++ ["exit"]
    ∧ dom (cds w) = list_to_set (["quit"; "exit"; "quit"] ++ ["exit"])
    ∧ (∀ ec ls, cds w !! ec = Some ls →
         ∃ l, ls = [l] ∧ heap w !! l = Some (exit_spec ec))
    ∧ input w = Some 0 ∧ trace w = [OpenInput 0]
    ∧ keypress w = 0 ∧ stdin w = []
    ∧ config_title w ≠ "" ∧ config_version w ≠ "".
Proof.
  apply (construction_installs_exit_verbs (Some "") None
           ["quit"; "exit"; "quit"] []).
Defined.
